(** * influx_inspect cardinality: a shallow embedding of
      [cmd/influx_inspect/cardinality/cardinality.go]

    The command walks a data directory, registers the shard directories it
    finds, streams the keys of every TSM file of every shard into a
    three-level index (database, retention policy, measurement) of counter
    pairs, and prints one row per measurement followed by a total row.

    Go byte slices and Go strings are both modelled as [string]; [uint64]
    values are integers of [Z] reduced modulo 2^64; Go maps are [gmap]s;
    the [*fieldsAndSeries] pointers stored in the index are addresses into
    an explicit heap. *)

From Stdlib Require Import ZArith Ascii String List.
From stdpp Require Import base tactics option list gmap strings fin_maps.

Open Scope string_scope.
Open Scope list_scope.
Open Scope Z_scope.

(** ** Byte strings *)
Module Bytes.

(** [bytes.HasPrefix]. *)
Fixpoint HasPrefix (s sep : string) {struct sep} : bool :=
  match sep, s with
  | EmptyString, _ => true
  | String _ _, EmptyString => false
  | String a sep', String b s' => if Ascii.eqb a b then HasPrefix s' sep' else false
  end.

(** The bytes of [s] from index [n] on ([s[n:]] for [n <= len(s)]). *)
Fixpoint drop (n : nat) (s : string) : string :=
  match n, s with
  | O, _ => s
  | S n', String _ s' => drop n' s'
  | S _, EmptyString => EmptyString
  end.

(** [bytes.Cut(s, sep)]: slices [s] around the first instance of [sep],
    returning the text before and after it and whether [sep] was found;
    when [sep] does not occur it returns [s, nil, false]. *)
Fixpoint Cut (s sep : string) : string * string * bool :=
  if HasPrefix s sep then (EmptyString, drop (String.length sep) s, true)
  else match s with
       | EmptyString => (EmptyString, EmptyString, false)
       | String c s' =>
           let '(before, after, found) := Cut s' sep in
           (String c before, after, found)
       end.


End Bytes.

(** The separator between the series key and the field name of a TSM key. *)
Definition keyFieldSeparator : string := "#!~#".

(** ** [strconv.Atoi] on a 64-bit platform and the [uint64] conversion *)
Module Strconv.

Definition digit (c : ascii) : option Z :=
  let n := Z.of_nat (nat_of_ascii c) in
  if (48 <=? n) && (n <=? 57) then Some (n - 48) else None.

(** The decimal value of a string of digits, most significant first. *)
Fixpoint digits (acc : Z) (s : string) : option Z :=
  match s with
  | EmptyString => Some acc
  | String c s' =>
      match digit c with
      | Some d => digits (acc * 10 + d) s'
      | None => None
      end
  end.

(** [strconv.Atoi]: an optional sign, then one or more decimal digits, the
    value within the range of [int] (64 bits); [None] is the error result
    (syntax or range). *)
Definition Atoi (s : string) : option Z :=
  match s with
  | EmptyString => None
  | String c rest =>
      let neg := Ascii.eqb c "-" in
      let body := if neg || Ascii.eqb c "+" then rest else s in
      match body with
      | EmptyString => None
      | _ =>
          match digits 0 body with
          | Some n =>
              let v := if neg then - n else n in
              if (- 2 ^ 63 <=? v) && (v <=? 2 ^ 63 - 1) then Some v else None
          | None => None
          end
      end
  end.

End Strconv.

(** The conversion [uint64(id)] of an [int], and [uint64] arithmetic. *)
Definition uint64 (z : Z) : Z := z mod 2 ^ 64.
Definition add64 (a b : Z) : Z := uint64 (a + b).
Definition mul64 (a b : Z) : Z := uint64 (a * b).

(** ** Errors, writers and report lines *)

Inductive error :=
| errDbPathRequired
    (** [errors.New("path to databaseRetentionPolicies must be provided")] *)
| errOS (msg : string)
    (** an error value handed back by the operating system or a library *).

(** [err.Error()], the text printed by the [%v] verb. *)
Definition Error (e : error) : string :=
  match e with
  | errDbPathRequired => "path to databaseRetentionPolicies must be provided"
  | errOS msg => msg
  end.

(** An [io.Writer]: what has been written to it so far, and the error its
    [Write] method returns, if it is a failing writer. *)
Record Writer (A : Type) := mkWriter { written : list A; failure : option error }.
Arguments mkWriter {A} _ _.
Arguments written {A} _.
Arguments failure {A} _.

Definition Write {A} (w : Writer A) (xs : list A) : Writer A * option error :=
  match failure w with
  | Some e => (w, Some e)
  | None => (mkWriter (written w ++ xs) None, None)
  end.

(** [fmt.Fprintf(w, ...)] with the formatted text [msg]. *)
Definition Fprintf (w : Writer string) (msg : string) : Writer string * option error :=
  Write w [msg].

Definition nl : string := String (ascii_of_nat 10) EmptyString.

(** The lines handed to the [tabwriter]; the alignment into columns is the
    [text/tabwriter] package's and is not modelled. *)
Inductive line :=
| Header  (** ["measurement\tseries\tfields\tcloud2 cardinality"] *)
| Rule    (** ["-----------\t------\t------\t------------------"] *)
| Row (d r m : string) (seriesN fieldsN c2 : Z)
          (** ["%q.%q.%q\t%d\t%d\t%d\n"] *)
| Total (estTitle : string) (seriesTotal fieldsTotal c2Cardinality : Z)
          (** ["total%s\t%d\t%d\t%d\n"] *).

(** ** The collaborators outside [cardinality.go] *)

(** What the command takes from other packages: the constant
    [tsdb.SeriesFileDirectory], the measurement name returned by
    [models.ParseKey], and the sketch behind [report.NewHLLCounter]. *)
Class Collaborators := {
  SeriesFileDirectory : string;
  ParseKey : string → string;
  hll : Type;
  hllNew : hll;
  hllAdd : string → hll → hll;
  hllCount : hll → Z
}.

(** [range] over a Go map visits the entries in an order the language does
    not fix: the order is a permutation chosen by the runtime. *)
Record RangeOrder := {
  order : ∀ A : Type, list A → list A;
  order_perm : ∀ (A : Type) (l : list A), order A l ≡ₚ l
}.

(** Map entries in the order [map_to_list] lists them, and in the reverse. *)
Program Definition listed : RangeOrder := {| order := λ A l, l |}.
Next Obligation. done. Qed.

Program Definition reversed : RangeOrder := {| order := λ A l, rev l |}.
Next Obligation. intros A l. symmetry. apply Permutation_rev. Qed.

(** ** The file system as [filepath.Walk] sees it *)

Set Warnings "-register-all".

Inductive node :=
| File (name : string)
| Dir (name : string) (readErr : option error) (entries : list node)
    (** [readErr]: the error of reading the directory's names, if any;
        [entries]: the entries in the order [Walk] visits them (lexical) *)
| Broken (name : string) (err : error)
    (** an entry whose [Lstat] fails *).

Definition nodeName (n : node) : string :=
  match n with File name | Dir name _ _ | Broken name _ => name end.

Record FileInfo := { Name : string; IsDir : bool }.

(** The arguments [info] and [err] of a [WalkFunc]: [info] is nil only when
    [Lstat] failed, and then [err] is that failure. *)
Inductive walkArg :=
| Stat (info : FileInfo) (err : option error)
| NoStat (err : error).

(** The non-nil values a [WalkFunc] returns. *)
Inductive walkErr :=
| SkipDir
| Failure (err : error).

(** [filepath.Join(path, name)] for a clean [path] and a plain [name]. *)
Definition Join (path name : string) : string := path +:+ "/" +:+ name.

Module Filepath.
Section Walk.
Context {S : Type}.
Variable walkFn : S → string → walkArg → S * option walkErr.

(** [filepath.walk]: the function is called on the node itself; for a
    directory that could be read and was not refused, on every entry in
    turn. [SkipDir] from a directory entry (or from an entry that could
    not be stat'ed) only skips that entry; from a file it ends the
    enclosing directory. *)
Fixpoint walk (path : string) (n : node) (s : S) : S * option walkErr :=
  match n with
  | Broken _ err => walkFn s path (NoStat err)
  | File name => walkFn s path (Stat {| Name := name; IsDir := false |} None)
  | Dir name readErr entries =>
      let '(s1, err1) := walkFn s path (Stat {| Name := name; IsDir := true |} readErr) in
      match readErr, err1 with
      | None, None =>
          (fix loop (es : list node) (s : S) : S * option walkErr :=
             match es with
             | [] => (s, None)
             | e :: es' =>
                 let '(s', r) := walk (Join path (nodeName e)) e s in
                 match r with
                 | None => loop es' s'
                 | Some SkipDir =>
                     match e with
                     | File _ => (s', Some SkipDir)
                     | _ => loop es' s'
                     end
                 | Some (Failure _) => (s', r)
                 end
             end) entries s1
      | _, _ => (s1, err1)
      end
  end.

(** The loop of [walk] over the entries of a directory, on its own. *)
Fixpoint walkLoop (path : string) (es : list node) (s : S) : S * option walkErr :=
  match es with
  | [] => (s, None)
  | e :: es' =>
      let '(s', r) := walk (Join path (nodeName e)) e s in
      match r with
      | None => walkLoop path es' s'
      | Some SkipDir =>
          match e with
          | File _ => (s', Some SkipDir)
          | _ => walkLoop path es' s'
          end
      | Some (Failure _) => (s', r)
      end
  end.

(** [filepath.Walk(root, fn)], with [n] what is found at [root]. *)
Definition Walk (root : string) (n : node) (s : S) : S * option error :=
  let '(s', r) := walk root n s in
  (s', match r with
       | Some (Failure err) => Some err
       | _ => None
       end).
End Walk.
End Filepath.

(** ** Counters (package [report]) *)
Section Model.
Context `{Collaborators}.

(** Modelled from the spec: [report.Counter], whose two implementations are
    absent from the sources at hand. The exact counter is a deduplicating
    set of the items seen and counts its size; the approximate one is the
    sketch of the collaborators. [Count] returns a [uint64]. *)
Inductive Counter :=
| exactCounter (m : gset string)
| hllCounter (h : hll).

Definition NewExactCounter (_ : unit) : Counter := exactCounter ∅.
Definition NewHLLCounter (_ : unit) : Counter := hllCounter hllNew.

Definition Add (item : string) (c : Counter) : Counter :=
  match c with
  | exactCounter m => exactCounter ({[ item ]} ∪ m)
  | hllCounter h => hllCounter (hllAdd item h)
  end.

Definition Count (c : Counter) : Z :=
  match c with
  | exactCounter m => uint64 (Z.of_nat (size m))
  | hllCounter h => uint64 (hllCount h)
  end.

(** ** The index *)

Record fieldsAndSeries := { fields : Counter; series : Counter }.

(** The cells the [*fieldsAndSeries] pointers refer to: a pointer is the
    position of its cell. *)
Abbreviation heap := (list fieldsAndSeries).
Abbreviation measurementFieldsAndSeries := (gmap string nat).
Abbreviation retentionPolicyMeasurements := (gmap string (gmap string nat)).
Abbreviation databaseRetentionPolicies := (gmap string (gmap string (gmap string nat))).

(** [initFieldsAndSeries]: the bucket of [(db, rp, ms)], created with two
    counters of [fn] where a level of the index lacks it. Returns the
    pointer with the index and the heap as they are after the call. *)
Definition initFieldsAndSeries (toto : databaseRetentionPolicies) (h : heap)
    (db rp ms : string) (fn : unit → Counter)
  : nat * databaseRetentionPolicies * heap :=
  let fresh := {| fields := fn (); series := fn () |} in
  match toto !! db with
  | None =>
      let m := length h in
      (m, <[db := {[ rp := {[ ms := m ]} ]}]> toto, h ++ [fresh])
  | Some rpMap =>
      match rpMap !! rp with
      | None =>
          let m := length h in
          (m, <[db := <[rp := {[ ms := m ]}]> rpMap]> toto, h ++ [fresh])
      | Some measurementMap =>
          match measurementMap !! ms with
          | None =>
              let m := length h in
              (m, <[db := <[rp := <[ms := m]> measurementMap]> rpMap]> toto,
               h ++ [fresh])
          | Some m => (m, toto, h)
          end
      end
  end.

(** The bucket of a triple, if the index has one. *)
Definition bucket (toto : databaseRetentionPolicies) (db rp ms : string) : option nat :=
  match toto !! db with
  | Some rpMap => match rpMap !! rp with
                  | Some measurementMap => measurementMap !! ms
                  | None => None
                  end
  | None => None
  end.

(** [fs.series.Add(item)] and [fs.fields.Add(item)] through the pointer. *)
Definition addSeries (fs : nat) (item : string) (h : heap) : heap :=
  alter (λ c, {| fields := fields c; series := Add item (series c) |}) fs h.
Definition addFields (fs : nat) (item : string) (h : heap) : heap :=
  alter (λ c, {| fields := Add item (fields c); series := series c |}) fs h.

(** The cell behind a pointer of the index (every pointer of the index was
    allocated by [initFieldsAndSeries]; the default is never reached). *)
Definition deref (h : heap) (p : nat) : fieldsAndSeries :=
  default {| fields := exactCounter ∅; series := exactCounter ∅ |} (h !! p).

(** ** The world a run reads *)

(** [tsm1.TSMReader]: the keys of the file's index in index order, and the
    error [Close] returns, if any. *)
Record TSMReader := { keys : list string; closeErr : option error }.

Definition KeyCount (r : TSMReader) : nat := length (keys r).
(** [reader.KeyAt(i)], the key only; nil outside the index. *)
Definition KeyAt (r : TSMReader) (i : nat) : string := nth i (keys r) EmptyString.
Definition Close (r : TSMReader) : option error := closeErr r.

(** One storage file as [reporthelper.WalkShardDirs] reports it. *)
Record location := { locDb : string; locRp : string; locId : string; locPath : string }.

Record World := {
  (** what [os.Lstat] and the directory listings give at a root path *)
  lstat : string → node;
  (** the storage files of a shard directory, or the error of listing them *)
  shardFiles : string → error + list location;
  (** [os.OpenFile(path)], then [tsm1.NewTSMReader(file)] *)
  openFile : string → error + (error + TSMReader);
  (** the order of each [range] over a map *)
  ranges : RangeOrder
}.

(** [for k, v := range m]: the entries of [m] in the order of the run. *)
Definition range {K V} `{Countable K} (ro : RangeOrder) (m : gmap K V) : list (K * V) :=
  order ro _ (map_to_list m).

(** Modelled from the spec: [reporthelper.WalkShardDirs], absent from the
    sources at hand. It enumerates the [(database, retentionPolicy, shardID,
    filePath)] tuple of every storage file under the shard directory and
    calls [fn] on each in turn, stopping at the first error; a failure of
    the enumeration itself is returned before any call. *)
Definition WalkShardDirs {S} (w : World) (root : string)
    (fn : string → string → string → string → S → S * option error) (s : S)
  : S * option error :=
  match shardFiles w root with
  | inl err => (s, Some err)
  | inr locs =>
      (fix loop (ls : list location) (s : S) : S * option error :=
         match ls with
         | [] => (s, None)
         | l :: ls' =>
             match fn (locDb l) (locRp l) (locId l) (locPath l) s with
             | (s', None) => loop ls' s'
             | (s', Some err) => (s', Some err)
             end
         end) locs s
  end.

(** ** The command *)

Record Command := {
  Stderr : Writer string;
  Stdout : Writer line;
  dbPath : string;
  shardPaths : gmap Z string;
  exact : bool;
  concurrency : Z
}.

(** [NewCommand], with the standard streams and [runtime.GOMAXPROCS(0)]. *)
Definition NewCommand (stderr : Writer string) (stdout : Writer line) (gomaxprocs : Z) : Command :=
  {| Stderr := stderr; Stdout := stdout; dbPath := EmptyString;
     shardPaths := ∅; exact := false; concurrency := gomaxprocs |}.

(** The values [fs.Parse(args)] stores for [-db-path], [-c] and [-exact]. *)
Record Flags := { flagDbPath : string; flagC : Z; flagExact : bool }.

(** The function [Run] hands to [filepath.Walk]; its state is
    [cmd.shardPaths]. *)
Definition discover (shardPaths : gmap Z string) (path : string) (a : walkArg)
  : gmap Z string * option walkErr :=
  match a with
  | NoStat err => (shardPaths, Some (Failure err))
  | Stat _ (Some err) => (shardPaths, Some (Failure err))
  | Stat info None =>
      if negb (IsDir info) then (shardPaths, None)
      else if String.eqb (Name info) SeriesFileDirectory || String.eqb (Name info) "index"
      then (shardPaths, Some SkipDir)
      else match Strconv.Atoi (Name info) with
           | None => (shardPaths, None)
           | Some id => (<[uint64 id := path]> shardPaths, None)
           end
  end.

(** What the shard loop reads and writes: [cmd.Stderr], [dbMap] and the
    cells behind the pointers of [dbMap]. *)
Record scan := {
  stderr : Writer string;
  toto : gmap string (gmap string (gmap string nat));
  cells : list fieldsAndSeries
}.

(** A [fmt.Fprintf(cmd.Stderr, ...)] whose results are discarded. *)
Definition warn (s : scan) (msg : string) : scan :=
  {| stderr := (Fprintf (stderr s) msg).1; toto := toto s; cells := cells s |}.

(** The body of the loop over the keys of one file. *)
Definition countKey (newCounterFn : unit → Counter) (db rp : string) (key : string)
    (s : scan) : scan :=
  let '(seriesKey, field, _) := Bytes.Cut key keyFieldSeparator in
  let measurement := ParseKey seriesKey in
  let '(fs, toto', h) := initFieldsAndSeries (toto s) (cells s) db rp measurement newCounterFn in
  let h := addSeries fs key h in
  let h := addFields fs field h in
  {| stderr := stderr s; toto := toto'; cells := h |}.

(** The function [Run] hands to [reporthelper.WalkShardDirs]. *)
Definition scanFile (w : World) (newCounterFn : unit → Counter)
    (db rp id path : string) (s : scan) : scan * option error :=
  match openFile w path with
  | inl err =>
      (warn s ("error: " +:+ path +:+ ": " +:+ Error err +:+ ". Skipping." +:+ nl), None)
  | inr (inl err) =>
      (warn s ("error: " +:+ path +:+ ": " +:+ Error err +:+ ". Skipping." +:+ nl), None)
  | inr (inr reader) =>
      let seriesCount := KeyCount reader in
      let s := foldl (λ s i, countKey newCounterFn db rp (KeyAt reader i) s) s
                     (seq 0 seriesCount) in
      let s := match Close reader with
               | Some err =>
                   warn s ("error closing: " +:+ path +:+ ": " +:+ Error err +:+ "." +:+ nl)
               | None => s
               end in
      (s, None)
  end.

(** The loop over [cmd.shardPaths]. *)
Fixpoint scanShards (w : World) (newCounterFn : unit → Counter)
    (ps : list (Z * string)) (s : scan) : scan * option error :=
  match ps with
  | [] => (s, None)
  | (_, p) :: ps' =>
      match WalkShardDirs w p (scanFile w newCounterFn) s with
      | (s', None) => scanShards w newCounterFn ps' s'
      | (s', Some err) => (warn s' (p +:+ ": " +:+ Error err +:+ nl), Some err)
      end
  end.

(** The buffer of the [tabwriter] and the three running totals. *)
Record tally := {
  tw : list line;
  c2Cardinality : Z;
  seriesTotal : Z;
  fieldsTotal : Z
}.

(** The body of the innermost report loop. Every line has four cells, so
    the [tabwriter] holds it until [Flush] and the write cannot fail. *)
Definition reportRow (h : list fieldsAndSeries) (d r m : string) (measure : nat)
    (t : tally) : tally :=
  let seriesN := Count (series (deref h measure)) in
  let fieldsN := Count (fields (deref h measure)) in
  {| tw := tw t ++ [Row d r m seriesN fieldsN (mul64 seriesN fieldsN)];
     c2Cardinality := add64 (c2Cardinality t) (mul64 seriesN fieldsN);
     seriesTotal := add64 (seriesTotal t) seriesN;
     fieldsTotal := add64 (fieldsTotal t) fieldsN |}.

(** The three nested loops over [dbMap]. *)
Definition reportRows (ro : RangeOrder) (dbMap : gmap string (gmap string (gmap string nat)))
    (h : list fieldsAndSeries) (t : tally) : tally :=
  foldl (λ t '(d, db),
    foldl (λ t '(r, rp),
      foldl (λ t '(m, measure), reportRow h d r m measure t) t (range ro rp))
      t (range ro db))
    t (range ro dbMap).

(** The report, from the creation of the [tabwriter] to the total line. *)
Definition report (ro : RangeOrder) (estTitle : string)
    (dbMap : gmap string (gmap string (gmap string nat))) (h : list fieldsAndSeries)
  : list line :=
  let t := {| tw := [Header; Rule]; c2Cardinality := 0; seriesTotal := 0; fieldsTotal := 0 |} in
  let t := reportRows ro dbMap h t in
  tw t ++ [Rule; Total estTitle (seriesTotal t) (fieldsTotal t) (c2Cardinality t)].

(** What a run leaves: the command, the index with its cells, and the
    returned error. *)
Record outcome := {
  final : Command;
  dbMap : gmap string (gmap string (gmap string nat));
  buckets : list fieldsAndSeries;
  err : option error
}.

(** [Run]. *)
Definition Run (cmd : Command) (w : World) (args : Flags) : outcome :=
  let cmd := {| Stderr := Stderr cmd; Stdout := Stdout cmd; dbPath := flagDbPath args;
                shardPaths := shardPaths cmd; exact := flagExact args;
                concurrency := flagC args |} in
  if String.eqb (dbPath cmd) EmptyString then
    {| final := cmd; dbMap := ∅; buckets := []; err := Some errDbPathRequired |}
  else
    let '(paths, werr) :=
      Filepath.Walk discover (dbPath cmd) (lstat w (dbPath cmd)) (shardPaths cmd) in
    let cmd := {| Stderr := Stderr cmd; Stdout := Stdout cmd; dbPath := dbPath cmd;
                  shardPaths := paths; exact := exact cmd;
                  concurrency := concurrency cmd |} in
    match werr with
    | Some e => {| final := cmd; dbMap := ∅; buckets := []; err := Some e |}
    | None =>
        if (size (shardPaths cmd) =? 0)%nat then
          let '(stderr', e) :=
            Fprintf (Stderr cmd) ("No shards under " +:+ dbPath cmd +:+ nl) in
          {| final := {| Stderr := stderr'; Stdout := Stdout cmd; dbPath := dbPath cmd;
                         shardPaths := shardPaths cmd; exact := exact cmd;
                         concurrency := concurrency cmd |};
             dbMap := ∅; buckets := []; err := e |}
        else
          let estTitle := if exact cmd then EmptyString else " (estimated)" in
          let newCounterFn := if exact cmd then NewExactCounter else NewHLLCounter in
          let '(s, serr) :=
            scanShards w newCounterFn (range (ranges w) (shardPaths cmd))
              {| stderr := Stderr cmd; toto := ∅; cells := [] |} in
          let cmd := {| Stderr := stderr s; Stdout := Stdout cmd; dbPath := dbPath cmd;
                        shardPaths := shardPaths cmd; exact := exact cmd;
                        concurrency := concurrency cmd |} in
          match serr with
          | Some e => {| final := cmd; dbMap := toto s; buckets := cells s; err := Some e |}
          | None =>
              let '(stdout', e) := Write (Stdout cmd)
                                       (report (ranges w) estTitle (toto s) (cells s)) in
              {| final := {| Stderr := Stderr cmd; Stdout := stdout'; dbPath := dbPath cmd;
                             shardPaths := shardPaths cmd; exact := exact cmd;
                             concurrency := concurrency cmd |};
                 dbMap := toto s; buckets := cells s; err := e |}
          end
    end.

(** ** Vocabulary of the properties *)

(** The engine's series-file directory and the index directory. *)
Definition reserved (name : string) : Prop :=
  name = SeriesFileDirectory ∨ name = "index".

(** What one call of [discover] puts into the shard map: the entries it
    adds to an empty map. *)
Definition registers (path : string) (a : walkArg) : list (Z * string) :=
  map_to_list (discover ∅ path a).1.

(** The walk started at a node reaches that node, and the entries of every
    readable directory it reaches whose name is not reserved. *)
Inductive reaches : string → node → string → node → Prop :=
| reaches_self p n : reaches p n p n
| reaches_entry p name entries e q n' :
    ¬ reserved name →
    e ∈ entries →
    reaches (Join p (nodeName e)) e q n' →
    reaches p (Dir name None entries) q n'.

(** The arguments [Walk] passes for a node. *)
Definition argOf (n : node) : walkArg :=
  match n with
  | File name => Stat {| Name := name; IsDir := false |} None
  | Dir name readErr _ => Stat {| Name := name; IsDir := true |} readErr
  | Broken _ e => NoStat e
  end.

(** The buckets of the index in the order the report loops meet them. *)
Definition rows (ro : RangeOrder) (dbMap : gmap string (gmap string (gmap string nat)))
  : list (string * string * string * nat) :=
  '(d, db) ← range ro dbMap;
  '(r, rp) ← range ro db;
  '(m, measure) ← range ro rp;
  [(d, r, m, measure)].

(** The two counts of the bucket behind a pointer. *)
Definition seriesOf (h : list fieldsAndSeries) (p : nat) : Z := Count (series (deref h p)).
Definition fieldsOf (h : list fieldsAndSeries) (p : nat) : Z := Count (fields (deref h p)).

(** The report row of a bucket. *)
Definition rowOf (h : list fieldsAndSeries) (e : string * string * string * nat) : line :=
  let '(d, r, m, p) := e in
  Row d r m (seriesOf h p) (fieldsOf h p) (mul64 (seriesOf h p) (fieldsOf h p)).

(** The sum of a list of integers. *)
Definition sum (l : list Z) : Z := foldr Z.add 0 l.

(** Every pointer of the index has a cell, and no two triples share one. *)
Definition indexWf (toto : gmap string (gmap string (gmap string nat)))
    (h : list fieldsAndSeries) : Prop :=
  (∀ db rp ms p, bucket toto db rp ms = Some p → (p < length h)%nat) ∧
  (∀ db rp ms db' rp' ms' p,
      bucket toto db rp ms = Some p → bucket toto db' rp' ms' = Some p →
      (db, rp, ms) = (db', rp', ms')).

(** A sequence of bucket lookups, each on the index and the heap the one
    before left. *)
Definition lookups (fn : unit → Counter) (ts : list (string * string * string))
    (th : gmap string (gmap string (gmap string nat)) * list fieldsAndSeries)
  : gmap string (gmap string (gmap string nat)) * list fieldsAndSeries :=
  foldl (λ th '(db, rp, ms),
           let '(_, toto', h') := initFieldsAndSeries th.1 th.2 db rp ms fn in
           (toto', h'))
        th ts.

(** The cell of the bucket of [(db, rp, ms)] before a key is counted: the
    one the index holds, or the fresh one the lookup is about to create. *)
Definition cellBefore (fn : unit → Counter) (s : scan) (db rp ms : string)
  : fieldsAndSeries :=
  match bucket (toto s) db rp ms with
  | Some q => deref (cells s) q
  | None => {| fields := fn (); series := fn () |}
  end.

(** The keys a storage file contributes, and the warnings it causes. *)
Definition fileKeys (w : World) (path : string) : list string :=
  match openFile w path with
  | inr (inr reader) => keys reader
  | _ => []
  end.

Definition fileWarnings (w : World) (path : string) : list string :=
  match openFile w path with
  | inl e | inr (inl e) =>
      ["error: " +:+ path +:+ ": " +:+ Error e +:+ ". Skipping." +:+ nl]
  | inr (inr reader) =>
      match closeErr reader with
      | Some e => ["error closing: " +:+ path +:+ ": " +:+ Error e +:+ "." +:+ nl]
      | None => []
      end
  end.

(** The keys of the readable files of a shard, each with the database and
    retention policy of its file, in file order and index order; and the
    warnings of the shard's files in file order. *)
Definition shardKeys (w : World) (locs : list location) : list (string * string * string) :=
  l ← locs; (λ k, (locDb l, locRp l, k)) <$> fileKeys w (locPath l).

Definition shardWarnings (w : World) (locs : list location) : list string :=
  l ← locs; fileWarnings w (locPath l).

(** Counting a list of keys, and writing a list of warnings. *)
Definition countAll (fn : unit → Counter) (ks : list (string * string * string))
    (s : scan) : scan :=
  foldl (λ s '(db, rp, k), countKey fn db rp k s) s ks.

Definition warns (msgs : list string) (s : scan) : scan := foldl warn s msgs.

(** The arguments of a run with another value for [-c]. *)
Definition withC (args : Flags) (c : Z) : Flags :=
  {| flagDbPath := flagDbPath args; flagC := c; flagExact := flagExact args |}.

(** The command with another value in its [concurrency] field. *)
Definition withConcurrency (cmd : Command) (c : Z) : Command :=
  {| Stderr := Stderr cmd; Stdout := Stdout cmd; dbPath := dbPath cmd;
     shardPaths := shardPaths cmd; exact := exact cmd; concurrency := c |}.

(** The measurement and the field name a raw key is routed by. *)
Definition measurementOfKey (key : string) : string :=
  ParseKey (Bytes.Cut key keyFieldSeparator).1.1.
Definition fieldOfKey (key : string) : string :=
  (Bytes.Cut key keyFieldSeparator).1.2.

(** The raw keys of a list of (database, retention policy, key) that are
    routed to the bucket of a triple, in the order of the list. *)
Definition routed (ks : list (string * string * string)) (d r m : string) : list string :=
  omap (λ '(d', r', k),
          if decide ((d', r', measurementOfKey k) = (d, r, m)) then Some k else None) ks.

(** The keys and the warnings of a list of shards whose files can be
    listed, shard after shard. *)
Definition listing (w : World) (p : string) : list location :=
  match shardFiles w p with
  | inr locs => locs
  | inl _ => []
  end.

Definition allKeys (w : World) (ps : list (Z * string)) : list (string * string * string) :=
  kp ← ps; shardKeys w (listing w kp.2).

Definition allWarnings (w : World) (ps : list (Z * string)) : list string :=
  kp ← ps; shardWarnings w (listing w kp.2).

(** The files of the shard can be listed. *)
Definition listable (w : World) (kp : Z * string) : Prop :=
  ∃ locs, shardFiles w kp.2 = inr locs.

(** The variant of a counter. *)
Definition isExact (c : Counter) : bool :=
  match c with
  | exactCounter _ => true
  | hllCounter _ => false
  end.

(** The state of the shard loop before the first shard. *)
Definition scanStart (cmd : Command) : scan :=
  {| stderr := Stderr cmd; toto := ∅; cells := [] |}.

End Model.

(** The calls a walk makes, in order: the walk function wrapped so that it
    records its arguments. *)
Definition traced {S} (fn : S → string → walkArg → S * option walkErr)
    (sl : S * list (string * walkArg)) (path : string) (a : walkArg)
  : (S * list (string * walkArg)) * option walkErr :=
  let '(s', r) := fn sl.1 path a in ((s', sl.2 ++ [(path, a)]), r).

Definition calls {S} (fn : S → string → walkArg → S * option walkErr)
    (path : string) (n : node) (s : S) : list (string * walkArg) :=
  (Filepath.walk (traced fn) path n (s, [])).1.2.

Definition callsLoop {S} (fn : S → string → walkArg → S * option walkErr)
    (path : string) (es : list node) (s : S) : list (string * walkArg) :=
  (Filepath.walkLoop (traced fn) path es (s, [])).1.2.

(** The entries the calls of a walk of [discover] put into the shard map,
    in order. *)
Definition registrations `{Collaborators} (root : string) (n : node)
    (shardPaths : gmap Z string) : list (Z * string) :=
  c ← calls discover root n shardPaths; registers c.1 c.2.

(** An entry the walk cannot get past: [Lstat] fails on it, or it is a
    directory whose names cannot be read. *)
Definition unreadable (n : node) : Prop :=
  match n with
  | Broken _ _ => True
  | Dir _ (Some _) _ => True
  | _ => False
  end.

(** [cmd.shardPaths[k] = path] for a list of entries, in order. *)
Definition assign (shardPaths : gmap Z string) (regs : list (Z * string)) : gmap Z string :=
  foldl (λ m kp, <[kp.1 := kp.2]> m) shardPaths regs.

(** ** A concrete setting: collaborators, streams and small worlds *)
Module Scenario.

(** Modelled from the spec: the measurement name [models.ParseKey] returns
    for a series key encoded as [measurement[,tag=value]*] with comma
    escaping: the bytes before the first comma that no backslash escapes,
    an escaping backslash before a comma or a space removed. *)
Fixpoint measurementOf (s : string) : string :=
  match s with
  | EmptyString => EmptyString
  | String c s' =>
      if Ascii.eqb c "," then EmptyString
      else if Ascii.eqb c "\" then
        match s' with
        | String c' s'' =>
            if Ascii.eqb c' "," || Ascii.eqb c' " "
            then String c' (measurementOf s'')
            else String c (measurementOf s')
        | EmptyString => String c EmptyString
        end
      else String c (measurementOf s')
  end.

(** The collaborators of the scenarios: the series-file directory is
    ["_series"]; the sketch stands in for the HyperLogLog one with a set,
    and is exercised by no exact-mode run. *)
Definition collaborators : Collaborators :=
  {| SeriesFileDirectory := "_series";
     ParseKey := measurementOf;
     hll := gset string;
     hllNew := ∅;
     hllAdd := λ item h, {[ item ]} ∪ h;
     hllCount := λ h, Z.of_nat (size h) |}.

(** A command as [NewCommand] makes it, with working standard streams. *)
Definition fresh : Command := NewCommand (mkWriter [] None) (mkWriter [] None) 8.

Definition noEntry (p : string) : node := Broken p (errOS "no such file or directory").

(** A world whose data directory ["data"] is the tree [t], with the given
    storage files per shard directory and the given file contents. *)
Definition world (ro : RangeOrder) (t : node)
    (shards : list (string * list location))
    (files : list (string * (error + (error + TSMReader)))) : World :=
  {| lstat := λ p, if String.eqb p "data" then t else noEntry p;
     shardFiles := λ p,
       match list_find (λ e, e.1 = p) shards with
       | Some (_, (_, ls)) => inr ls
       | None => inr []
       end;
     openFile := λ p,
       match list_find (λ e, e.1 = p) files with
       | Some (_, (_, f)) => f
       | None => inl (errOS "no such file or directory")
       end;
     ranges := ro |}.

Definition tsm (ks : list string) : error + (error + TSMReader) :=
  inr (inr {| keys := ks; closeErr := None |}).

(** The state of the shard loop before the first file. *)
Definition emptyScan : scan (H := collaborators) :=
  {| stderr := mkWriter [] None; toto := ∅; cells := [] |}.

(** *** Two shards of [db0]/[autogen], one storage file each *)

Definition twoShards : node :=
  Dir "data" None
    [Dir "db0" None
       [Dir "autogen" None
          [Dir "1" None [File "000000001-000000001.tsm"];
           Dir "2" None [File "000000001-000000001.tsm"]]]].

Definition shard1 : string := "data/db0/autogen/1".
Definition shard2 : string := "data/db0/autogen/2".
Definition file1 : string := "data/db0/autogen/1/000000001-000000001.tsm".
Definition file2 : string := "data/db0/autogen/2/000000001-000000001.tsm".

Definition twoShardFiles : list (string * list location) :=
  [(shard1, [{| locDb := "db0"; locRp := "autogen"; locId := "1"; locPath := file1 |}]);
   (shard2, [{| locDb := "db0"; locRp := "autogen"; locId := "2"; locPath := file2 |}])].

(** Where a key of the scenario is stored. *)
Inductive placement := InFirst | InSecond | InBoth.

Definition inFirst (p : placement) : bool :=
  match p with InSecond => false | _ => true end.
Definition inSecond (p : placement) : bool :=
  match p with InFirst => false | _ => true end.

Definition cpuA : string := "cpu,host=a#!~#value".
Definition cpuB : string := "cpu,host=b#!~#value".
Definition memA : string := "mem,host=a#!~#used".

Definition place (f : placement → bool) (pa pb pm : placement) : list string :=
  (if f pa then [cpuA] else []) ++ (if f pb then [cpuB] else []) ++
  (if f pm then [memA] else []).

(** The world of the scenario: the three keys stored as [pa], [pb], [pm] say. *)
Definition split (ro : RangeOrder) (pa pb pm : placement) : World :=
  world ro twoShards twoShardFiles
    [(file1, tsm (place inFirst pa pb pm)); (file2, tsm (place inSecond pa pb pm))].

Definition exactFlags : Flags :=
  {| flagDbPath := "data"; flagC := 8; flagExact := true |}.
Definition defaultFlags : Flags :=
  {| flagDbPath := "data"; flagC := 8; flagExact := false |}.

(** *** One series with two fields *)
Definition twoFields : World :=
  world listed
    (Dir "data" None [Dir "db0" None [Dir "autogen" None [Dir "1" None [File "1.tsm"]]]])
    [(shard1, [{| locDb := "db0"; locRp := "autogen"; locId := "1";
                  locPath := "data/db0/autogen/1/1.tsm" |}])]
    [("data/db0/autogen/1/1.tsm", tsm ["cpu,host=a#!~#idle"; "cpu,host=a#!~#user"])].

(** *** A data directory without shard directories *)
Definition noShards : World :=
  world listed (Dir "data" None [Dir "db0" None [Dir "autogen" None []]]) [] [].

(** *** Directory names that are not plain shard numbers *)
Definition oddShards : list node :=
  [Dir "+7" None []; Dir "-5" None []; Dir "007" None []; Dir "7" None [];
   Dir "9223372036854775808" None [];
   Dir "_series" None [Dir "3" None []]; Dir "index" None [Dir "4" None []]].
Definition oddRp : node := Dir "autogen" None oddShards.
Definition oddDb : node := Dir "db0" None [oddRp].
Definition oddTree : node := Dir "data" None [oddDb].

Definition oddNames : World := world listed oddTree [] [].

(** *** A shard with an unreadable and a readable file *)
Definition oneBadFile : World :=
  world listed
    (Dir "data" None [Dir "db0" None [Dir "autogen" None [Dir "1" None []]]])
    [(shard1, [{| locDb := "db0"; locRp := "autogen"; locId := "1"; locPath := "bad.tsm" |};
               {| locDb := "db0"; locRp := "autogen"; locId := "1"; locPath := "good.tsm" |}])]
    [("bad.tsm", inr (inl (errOS "invalid TSM file")));
     ("good.tsm", tsm [cpuA; memA])].

(** *** A shard whose files cannot be listed, after one that can *)
Definition lostShard : World :=
  {| lstat := λ p,
       if String.eqb p "data"
       then Dir "data" None
              [Dir "db0" None [Dir "autogen" None [Dir "1" None []; Dir "2" None []]]]
       else noEntry p;
     shardFiles := λ p,
       if String.eqb p shard1
       then inl (errOS "permission denied")
       else inr [{| locDb := "db0"; locRp := "autogen"; locId := "2";
                     locPath := "good.tsm" |}];
     openFile := λ p,
       if String.eqb p "good.tsm" then tsm [cpuA; memA]
       else inl (errOS "no such file or directory");
     ranges := listed |}.

(** *** A data directory with a retention policy that cannot be read *)
Definition lockedTree : node :=
  Dir "data" None
    [Dir "db0" None
       [Dir "autogen" None [Dir "1" None []];
        Dir "secret" (Some (errOS "permission denied")) []]].

Definition locked : World := world listed lockedTree [] [].

(** A command whose standard output fails. *)
Definition muted : Command :=
  NewCommand (mkWriter [] None) (mkWriter [] (Some (errOS "broken pipe"))) 8.

(** A command that an earlier run left with a shard registered. *)
Definition stale : Command :=
  {| Stderr := mkWriter [] None; Stdout := mkWriter [] None; dbPath := "old";
     shardPaths := {[ 9 := "old/db0/autogen/9" ]}; exact := false; concurrency := 8 |}.

(** The arguments of a run without [-db-path]. *)
Definition noPathFlags : Flags :=
  {| flagDbPath := EmptyString; flagC := 8; flagExact := false |}.

End Scenario.

(** * Properties *)

(** ** Key decomposition *)
Section Cut.
Import Bytes.
#[local] Arguments String.append !_ _ / : simpl nomatch.








End Cut.

(** ** The index *)
Section Index.
Context `{Collaborators}.

Local Abbreviation dbmap := (gmap string (gmap string (gmap string nat))).

Lemma bucket_empty db rp ms : bucket ∅ db rp ms = None.
Proof. done. Qed.

(** A lookup of a triple the index has returns its pointer and changes
    nothing. *)
Lemma initFieldsAndSeries_found (toto : dbmap) h db rp ms fn p :
  bucket toto db rp ms = Some p →
  initFieldsAndSeries toto h db rp ms fn = (p, toto, h).
Proof.
  unfold bucket, initFieldsAndSeries. intros Hb.
  destruct (toto !! db) as [rpMap|]; [|done].
  destruct (rpMap !! rp) as [mm|]; [|done].
  by rewrite Hb.
Qed.

(** A lookup of a triple the index lacks allocates one cell with two
    counters of the factory, stores its address under the triple and
    leaves every other triple as it was. *)
Lemma initFieldsAndSeries_fresh (toto : dbmap) h db rp ms fn :
  bucket toto db rp ms = None →
  ∃ toto' : dbmap,
    initFieldsAndSeries toto h db rp ms fn
      = (length h, toto', h ++ [{| fields := fn (); series := fn () |}]) ∧
    bucket toto' db rp ms = Some (length h) ∧
    ∀ db' rp' ms', (db', rp', ms') ≠ (db, rp, ms) →
                   bucket toto' db' rp' ms' = bucket toto db' rp' ms'.
Proof.
  unfold bucket, initFieldsAndSeries. intros Hb.
  destruct (toto !! db) as [rpMap|] eqn:Hdb;
    [destruct (rpMap !! rp) as [mm|] eqn:Hrp; [rewrite Hb|]|];
    eexists; (split; [reflexivity|]); (split; [by simplify_map_eq|]);
    intros db' rp' ms' Hne;
    destruct (decide (db' = db)) as [->|?]; simplify_map_eq; try done;
    destruct (decide (rp' = rp)) as [->|?]; simplify_map_eq; try done;
    destruct (decide (ms' = ms)) as [->|?]; simplify_map_eq; done.
Qed.

Lemma indexWf_empty : indexWf ∅ [].
Proof. split; intros *; by rewrite bucket_empty. Qed.

(** A lookup keeps the index well formed and returns the pointer the index
    then holds for the triple. *)
Lemma initFieldsAndSeries_wf (toto toto' : dbmap) h h' db rp ms fn p :
  indexWf toto h →
  initFieldsAndSeries toto h db rp ms fn = (p, toto', h') →
  indexWf toto' h' ∧ bucket toto' db rp ms = Some p.
Proof.
  intros [Hlt Hinj] Hinit.
  destruct (bucket toto db rp ms) as [q|] eqn:Hb.
  - rewrite (initFieldsAndSeries_found _ _ _ _ _ _ _ Hb) in Hinit.
    by simplify_eq.
  - destruct (initFieldsAndSeries_fresh toto h db rp ms fn Hb)
      as (t & Heq & Hnew & Hother).
    rewrite Heq in Hinit. simplify_eq. split; [|done]. split.
    + intros db' rp' ms' p' Hp'. rewrite length_app. simpl.
      destruct (decide ((db', rp', ms') = (db, rp, ms))) as [?|Hne].
      * simplify_eq. lia.
      * rewrite (Hother _ _ _ Hne) in Hp'. apply Hlt in Hp'. lia.
    + intros db1 rp1 ms1 db2 rp2 ms2 p' H1 H2.
      destruct (decide ((db1, rp1, ms1) = (db, rp, ms))) as [E1|N1];
        destruct (decide ((db2, rp2, ms2) = (db, rp, ms))) as [E2|N2].
      * congruence.
      * rewrite (Hother _ _ _ N2) in H2. apply Hlt in H2. simplify_eq. lia.
      * rewrite (Hother _ _ _ N1) in H1. apply Hlt in H1. simplify_eq. lia.
      * rewrite (Hother _ _ _ N1) in H1. rewrite (Hother _ _ _ N2) in H2. eauto.
Qed.

(** A lookup never moves the bucket of a triple that has one, and never
    touches a cell that exists. *)
Lemma initFieldsAndSeries_keeps (toto toto' : dbmap) h h' db rp ms fn p :
  initFieldsAndSeries toto h db rp ms fn = (p, toto', h') →
  (∀ db' rp' ms' q, bucket toto db' rp' ms' = Some q →
                    bucket toto' db' rp' ms' = Some q) ∧
  (∃ more, h' = h ++ more).
Proof.
  intros Hinit.
  destruct (bucket toto db rp ms) as [q|] eqn:Hb.
  - rewrite (initFieldsAndSeries_found _ _ _ _ _ _ _ Hb) in Hinit.
    simplify_eq. split; [done|]. exists []. by rewrite app_nil_r.
  - destruct (initFieldsAndSeries_fresh toto h db rp ms fn Hb)
      as (t & Heq & Hnew & Hother).
    rewrite Heq in Hinit. simplify_eq. split; [|eauto].
    intros db' rp' ms' q Hq.
    destruct (decide ((db', rp', ms') = (db, rp, ms))) as [?|Hne].
    + simplify_eq.
    + by rewrite (Hother _ _ _ Hne).
Qed.

(** The step of the key loop on a well-formed index. *)
Lemma countKey_spec fn db rp key (s : scan) :
  indexWf (toto s) (cells s) →
  let seriesKey := (Bytes.Cut key keyFieldSeparator).1.1 in
  let field := (Bytes.Cut key keyFieldSeparator).1.2 in
  let measurement := ParseKey seriesKey in
  let s' := countKey fn db rp key s in
  ∃ p,
    bucket (toto s') db rp measurement = Some p ∧
    cells s' !! p =
      Some {| fields := Add field (fields (cellBefore fn s db rp measurement));
              series := Add key (series (cellBefore fn s db rp measurement)) |} ∧
    (∀ q, q ≠ p → (q < length (cells s))%nat → cells s' !! q = cells s !! q) ∧
    (∀ db' rp' ms', (db', rp', ms') ≠ (db, rp, measurement) →
                    bucket (toto s') db' rp' ms' = bucket (toto s) db' rp' ms') ∧
    indexWf (toto s') (cells s') ∧
    stderr s' = stderr s.
Proof.
  intros Hwf. unfold countKey, cellBefore.
  destruct (Bytes.Cut key keyFieldSeparator) as [[seriesKey field] found]. simpl.
  destruct (initFieldsAndSeries (toto s) (cells s) db rp (ParseKey seriesKey) fn)
    as [[p toto'] h'] eqn:Hinit. simpl.
  destruct (initFieldsAndSeries_wf _ _ _ _ _ _ _ _ _ Hwf Hinit) as [Hwf' Hp].
  exists p. unfold addFields, addSeries.
  assert (indexWf toto' (alter (λ c, {| fields := Add field (fields c); series := series c |}) p
            (alter (λ c, {| fields := fields c; series := Add key (series c) |}) p h'))) as Hwf''.
  { destruct Hwf' as [Hlt Hinj]. split; [|done].
    intros. rewrite !length_alter. eauto. }
  destruct (bucket (toto s) db rp (ParseKey seriesKey)) as [q|] eqn:Hb.
  - destruct Hwf as [Hlt _]. pose proof (Hlt _ _ _ _ Hb) as Hq.
    apply lookup_lt_is_Some_2 in Hq as [c Hc].
    rewrite (initFieldsAndSeries_found _ _ _ _ _ _ _ Hb) in Hinit. simplify_eq.
    split_and!; try done.
    + rewrite !list_lookup_alter_eq, Hc. unfold deref. by rewrite Hc.
    + intros q' Hne _. by rewrite !list_lookup_alter_ne.
  - destruct (initFieldsAndSeries_fresh (toto s) (cells s) db rp (ParseKey seriesKey) fn Hb)
      as (t & Heq & Hnew & Hother).
    rewrite Heq in Hinit. simplify_eq.
    split_and!; try done.
    + by rewrite !list_lookup_alter_eq, list_lookup_middle.
    + intros q' Hne Hlt. rewrite !list_lookup_alter_ne by done.
      by rewrite lookup_app_l.
Qed.

(** C1 (as amended). For every key the key loop processes, on a
    well-formed index: the bucket is the one of (database, retention policy,
    measurement of the series-key part), and the item added to its series
    counter is the whole raw key as the reader returned it, the item added
    to its fields counter the field-name part. *)
Theorem countKey_adds_raw_key fn db rp key (s : scan) :
  indexWf (toto s) (cells s) →
  let seriesKey := (Bytes.Cut key keyFieldSeparator).1.1 in
  let field := (Bytes.Cut key keyFieldSeparator).1.2 in
  let before := cellBefore fn s db rp (ParseKey seriesKey) in
  let s' := countKey fn db rp key s in
  ∃ p,
    bucket (toto s') db rp (ParseKey seriesKey) = Some p ∧
    series (deref (cells s') p) = Add key (series before) ∧
    fields (deref (cells s') p) = Add field (fields before).
Proof.
  intros Hwf. destruct (countKey_spec fn db rp key s Hwf) as (p & Hp & Hc & _).
  exists p. split; [done|]. unfold deref. by rewrite Hc.
Qed.

Lemma lookups_snoc fn ts t (th : dbmap * list fieldsAndSeries) :
  lookups fn (ts ++ [t]) th =
  let '(_, toto', h') :=
    initFieldsAndSeries (lookups fn ts th).1 (lookups fn ts th).2 t.1.1 t.1.2 t.2 fn in
  (toto', h').
Proof. unfold lookups. rewrite foldl_app. simpl. by destruct t as [[db rp] ms]. Qed.

(** Lookups never move a bucket and only ever extend the heap. *)
Lemma lookups_keeps fn ts (toto : dbmap) h :
  (∀ db rp ms p, bucket toto db rp ms = Some p →
                 bucket (lookups fn ts (toto, h)).1 db rp ms = Some p) ∧
  (∃ more, (lookups fn ts (toto, h)).2 = h ++ more).
Proof.
  induction ts as [|t ts IH] using rev_ind.
  - split; [done|]. exists []. by rewrite app_nil_r.
  - rewrite lookups_snoc. destruct IH as [IHb [more IHh]].
    destruct (initFieldsAndSeries _ _ _ _ _ _) as [[p toto'] h'] eqn:Hinit.
    apply initFieldsAndSeries_keeps in Hinit as [Hb [more' Hh]]. simpl. split.
    + eauto.
    + exists (more ++ more'). by rewrite Hh, IHh, app_assoc.
Qed.

(** After a sequence of lookups from the empty index: the index has a
    bucket for exactly the triples looked up, the heap one cell per distinct
    triple, every cell the pair of fresh counters. *)
Lemma lookups_from_empty fn ts :
  let th := lookups fn ts (∅, []) in
  indexWf th.1 th.2 ∧
  (∀ db rp ms, is_Some (bucket th.1 db rp ms) ↔ (db, rp, ms) ∈ ts) ∧
  length th.2 = size (list_to_set ts : gset (string * string * string)) ∧
  th.2 = replicate (length th.2) {| fields := fn (); series := fn () |}.
Proof.
  induction ts as [|t ts IH] using rev_ind; simpl.
  - split_and!; [apply indexWf_empty| |done|done].
    intros db rp ms. rewrite bucket_empty. split; [by intros [? ?]|].
    by intros ?%elem_of_nil.
  - rewrite lookups_snoc. destruct IH as (Hwf & Hdom & Hlen & Hrep).
    destruct t as [[db rp] ms]. simpl.
    destruct (bucket (lookups fn ts (∅, [])).1 db rp ms) as [q|] eqn:Hb.
    + rewrite (initFieldsAndSeries_found _ _ _ _ _ _ _ Hb). simpl.
      assert ((db, rp, ms) ∈ ts) as Hin by (apply Hdom; eauto).
      split_and!; [done| | |done].
      * intros db' rp' ms'. rewrite Hdom. set_solver.
      * rewrite Hlen. f_equal. set_solver.
    + destruct (initFieldsAndSeries_fresh _ (lookups fn ts (∅, [])).2 _ _ _ fn Hb)
        as (toto' & Heq & Hnew & Hother).
      assert ((db, rp, ms) ∉ ts) as Hnin.
      { intros Hin. apply Hdom in Hin as [? ?]. congruence. }
      pose proof (initFieldsAndSeries_wf _ _ _ _ _ _ _ _ _ Hwf Heq) as [Hwf' _].
      rewrite Heq. simpl. split_and!; [done| | |].
      * intros db' rp' ms'.
        destruct (decide ((db', rp', ms') = (db, rp, ms))) as [?|Hne].
        -- simplify_eq. split; [set_solver | eauto].
        -- rewrite (Hother _ _ _ Hne), Hdom. set_solver.
      * rewrite length_app, Hlen, list_to_set_app_L. simpl.
        rewrite size_union by set_solver.
        rewrite (right_id_L ∅ (∪)), size_singleton. done.
      * rewrite length_app. simpl. rewrite Nat.add_1_r, replicate_S_end.
        by rewrite <-Hrep.
Qed.

(** C6. For every sequence of bucket lookups: a triple never looked up has
    no entry; the first lookup of a triple creates exactly one bucket, a
    new cell holding two fresh counters of the factory, and touches no other
    triple; every later lookup of the triple returns that same bucket and
    leaves index and heap as they are; no further lookup and no counted key
    moves the bucket of a triple to another cell, and the heap has one cell
    per distinct triple looked up. *)
Theorem bucket_created_once fn :
  (∀ ts db rp ms,
      (db, rp, ms) ∉ ts → bucket (lookups fn ts (∅, [])).1 db rp ms = None) ∧
  (∀ (toto : dbmap) h db rp ms,
      bucket toto db rp ms = None →
      ∃ toto' : dbmap,
        initFieldsAndSeries toto h db rp ms fn
          = (length h, toto', h ++ [{| fields := fn (); series := fn () |}]) ∧
        bucket toto' db rp ms = Some (length h) ∧
        ∀ db' rp' ms', (db', rp', ms') ≠ (db, rp, ms) →
                       bucket toto' db' rp' ms' = bucket toto db' rp' ms') ∧
  (∀ (toto : dbmap) h db rp ms p,
      bucket toto db rp ms = Some p →
      initFieldsAndSeries toto h db rp ms fn = (p, toto, h)) ∧
  (∀ ts (toto : dbmap) h db rp ms p,
      bucket toto db rp ms = Some p →
      bucket (lookups fn ts (toto, h)).1 db rp ms = Some p ∧
      ∃ more, (lookups fn ts (toto, h)).2 = h ++ more) ∧
  (∀ (s : scan) db rp key db' rp' ms' p,
      bucket (toto s) db' rp' ms' = Some p →
      bucket (toto (countKey fn db rp key s)) db' rp' ms' = Some p ∧
      length (cells s) ≤ length (cells (countKey fn db rp key s)))%nat ∧
  (∀ ts,
      length (lookups fn ts (∅, [])).2
      = size (list_to_set ts : gset (string * string * string))).
Proof.
  split_and!.
  - intros ts db rp ms Hnin.
    destruct (lookups_from_empty fn ts) as (_ & Hdom & _).
    destruct (bucket _ db rp ms) eqn:Hb; [|done].
    exfalso. apply Hnin, Hdom. eauto.
  - intros. by apply initFieldsAndSeries_fresh.
  - intros. by apply initFieldsAndSeries_found.
  - intros ts toto h db rp ms p Hb.
    destruct (lookups_keeps fn ts toto h) as [Hk Hm]. eauto.
  - intros s db rp key db' rp' ms' p Hb. unfold countKey.
    destruct (Bytes.Cut key keyFieldSeparator) as [[seriesKey field] found].
    destruct (initFieldsAndSeries _ _ _ _ _ _) as [[q toto'] h'] eqn:Hinit.
    apply initFieldsAndSeries_keeps in Hinit as [Hk [more Hm]]. simpl.
    split; [eauto|]. unfold addFields, addSeries.
    rewrite !length_alter, Hm, length_app. lia.
  - intros ts. by destruct (lookups_from_empty fn ts) as (_ & _ & Hlen & _).
Qed.

End Index.

Section IndexExamples.
Import Scenario.
#[local] Existing Instance collaborators.

(** [countKey_adds_raw_key] on the first key of the scenario, counted into
    the empty index. *)
Lemma countKey_adds_raw_key_witness :
  indexWf (toto emptyScan) (cells emptyScan) ∧
  ∃ p,
    bucket (toto (countKey NewExactCounter "db0" "autogen" cpuA emptyScan))
           "db0" "autogen" "cpu" = Some p ∧
    series (deref (cells (countKey NewExactCounter "db0" "autogen" cpuA emptyScan)) p)
      = Add cpuA (NewExactCounter ()) ∧
    fields (deref (cells (countKey NewExactCounter "db0" "autogen" cpuA emptyScan)) p)
      = Add "value" (NewExactCounter ()).
Proof.
  split.
  - apply indexWf_empty.
  - apply (countKey_adds_raw_key NewExactCounter "db0" "autogen" cpuA emptyScan).
    apply indexWf_empty.
Defined.

(** C1 fails as stated. In exact mode, a file holding one series with the
    two fields [idle] and [user] leaves two items in the series counter of
    its measurement, the two raw keys, and the counter is not the one that
    holds the single series-key part ["cpu,host=a"]. *)
Lemma series_counter_holds_raw_keys :
  let o := Run fresh twoFields exactFlags in
  err o = None ∧
  ∃ p,
    bucket (dbMap o) "db0" "autogen" "cpu" = Some p ∧
    series (deref (buckets o) p)
      = Add "cpu,host=a#!~#user" (Add "cpu,host=a#!~#idle" (NewExactCounter ())) ∧
    Count (series (deref (buckets o) p)) = 2 ∧
    series (deref (buckets o) p) ≠ Add "cpu,host=a" (NewExactCounter ()) ∧
    written (Stdout (final o))
      = [Header; Rule; Row "db0" "autogen" "cpu" 2 2 4; Rule; Total "" 2 2 4].
Proof.
  split; [by vm_compute|]. exists 0%nat.
  split_and!; by vm_compute.
Qed.

(** [bucket_created_once] on the lookups of [cpu], [mem] and [cpu] again. *)
Lemma bucket_created_once_witness :
  let cpu := ("db0", "autogen", "cpu") in
  let mem := ("db0", "autogen", "mem") in
  let th := lookups NewExactCounter [cpu; mem; cpu] (∅, []) in
  bucket th.1 "db0" "autogen" "disk" = None ∧
  bucket th.1 "db0" "autogen" "cpu" = Some 0%nat ∧
  initFieldsAndSeries th.1 th.2 "db0" "autogen" "cpu" NewExactCounter = (0%nat, th.1, th.2) ∧
  (∃ toto',
      initFieldsAndSeries th.1 th.2 "db0" "autogen" "disk" NewExactCounter
        = (length th.2, toto',
           th.2 ++ [{| fields := NewExactCounter (); series := NewExactCounter () |}]) ∧
      bucket toto' "db0" "autogen" "disk" = Some (length th.2) ∧
      ∀ db' rp' ms', (db', rp', ms') ≠ ("db0", "autogen", "disk") →
                     bucket toto' db' rp' ms' = bucket th.1 db' rp' ms') ∧
  length th.2 = 2%nat.
Proof.
  destruct (bucket_created_once NewExactCounter) as (Hnone & Hfirst & Hnext & _ & _ & Hsize).
  split_and!.
  - apply Hnone. set_solver.
  - by vm_compute.
  - apply Hnext. by vm_compute.
  - apply Hfirst. by vm_compute.
  - rewrite Hsize. by vm_compute.
Defined.

End IndexExamples.

(** ** Files that cannot be read *)
Section Files.
Context `{Collaborators}.

Lemma foldl_seq_nth {A B} (g : A → B → B) (d : A) (pre l : list A) (s : B) :
  foldl (λ s i, g (nth i (pre ++ l) d) s) s (seq (length pre) (length l))
  = foldl (λ s k, g k s) s l.
Proof.
  revert pre s. induction l as [|k l IH]; intros pre s; [done|].
  simpl. rewrite nth_middle.
  replace (pre ++ k :: l) with ((pre ++ [k]) ++ l) by by rewrite <-app_assoc.
  specialize (IH (pre ++ [k]) (g k s)).
  rewrite length_app in IH. simpl in IH. rewrite Nat.add_1_r in IH. apply IH.
Qed.

Lemma countKey_warn fn db rp key (s : scan) msg :
  countKey fn db rp key (warn s msg) = warn (countKey fn db rp key s) msg.
Proof.
  unfold countKey, warn. simpl.
  destruct (Bytes.Cut key keyFieldSeparator) as [[seriesKey field] found].
  by destruct (initFieldsAndSeries _ _ _ _ _ _) as [[p toto'] h'].
Qed.

Lemma countAll_warns fn ks msgs (s : scan) :
  countAll fn ks (warns msgs s) = warns msgs (countAll fn ks s).
Proof.
  revert s. induction msgs as [|m msgs IH] using rev_ind; intros s; [done|].
  unfold warns in *. rewrite !foldl_app. simpl. rewrite <-IH.
  generalize (foldl warn s msgs). clear. intros s. revert s.
  induction ks as [|[[db rp] k] ks IH]; intros s; [done|].
  simpl. rewrite countKey_warn. apply IH.
Qed.

Lemma countAll_app fn ks ks' (s : scan) :
  countAll fn (ks ++ ks') s = countAll fn ks' (countAll fn ks s).
Proof. unfold countAll. by rewrite foldl_app. Qed.

Lemma warns_app ms ms' (s : scan) : warns (ms ++ ms') s = warns ms' (warns ms s).
Proof. unfold warns. by rewrite foldl_app. Qed.

Lemma warns_index msgs (s : scan) :
  toto (warns msgs s) = toto s ∧ cells (warns msgs s) = cells s.
Proof.
  induction msgs as [|m msgs IH] using rev_ind; [done|].
  rewrite warns_app. simpl. done.
Qed.

(** One file: its keys are counted if it can be opened and parsed, its
    warning (if any) is written, and no error is returned. *)
Lemma scanFile_spec (w : World) fn db rp id path (s : scan) :
  scanFile w fn db rp id path s
  = (warns (fileWarnings w path)
       (countAll fn ((λ k, (db, rp, k)) <$> fileKeys w path) s), None).
Proof.
  unfold scanFile, fileKeys, fileWarnings.
  destruct (openFile w path) as [e|[e|reader]]; try done.
  unfold KeyCount, KeyAt, Close.
  pose proof (foldl_seq_nth (λ k s, countKey fn db rp k s) EmptyString [] (keys reader) s)
    as Hloop.
  simpl in Hloop. rewrite Hloop. clear Hloop.
  assert (∀ ks s, foldl (λ (s : scan) k, countKey fn db rp k s) s ks
                  = countAll fn ((λ k, (db, rp, k)) <$> ks) s) as ->.
  { clear. induction ks as [|k ks IH]; intros s; [done|]. simpl. apply IH. }
  by destruct (closeErr reader).
Qed.

(** One shard: the keys of its readable files are all counted, in order,
    the warnings are written, and no error is returned. *)
Lemma WalkShardDirs_scanFile (w : World) fn root locs (s : scan) :
  shardFiles w root = inr locs →
  WalkShardDirs w root (scanFile w fn) s
  = (warns (shardWarnings w locs) (countAll fn (shardKeys w locs) s), None).
Proof.
  intros Hls. unfold WalkShardDirs. rewrite Hls. clear Hls.
  revert s. induction locs as [|l locs IH]; intros s; [done|].
  rewrite scanFile_spec, IH. f_equal.
  unfold shardKeys, shardWarnings. simpl.
  by rewrite countAll_app, warns_app, countAll_warns.
Qed.

End Files.

(** ** The run as a whole *)
Section RunProperties.
Context `{Collaborators}.

(** The diagnostic of a run that found no shard. *)
Local Abbreviation noShardsMsg args := ("No shards under " +:+ flagDbPath args +:+ nl).

(** C2 (as amended). A run with a data path whose shard discovery succeeds
    and leaves the shard map empty writes the ["No shards under <path>"]
    diagnostic to standard error and returns at once with the result of that
    write: no error when the write succeeds. It prints no report: standard
    output is left as it was, and the index stays empty. *)
Theorem Run_no_shards (cmd : Command) (w : World) (args : Flags) paths :
  flagDbPath args ≠ EmptyString →
  Filepath.Walk discover (flagDbPath args) (lstat w (flagDbPath args)) (shardPaths cmd)
    = (paths, None) →
  size paths = 0%nat →
  let o := Run cmd w args in
  Stderr (final o) = (Fprintf (Stderr cmd) (noShardsMsg args)).1 ∧
  err o = (Fprintf (Stderr cmd) (noShardsMsg args)).2 ∧
  (failure (Stderr cmd) = None →
     err o = None ∧
     written (Stderr (final o)) = written (Stderr cmd) ++ [noShardsMsg args]) ∧
  Stdout (final o) = Stdout cmd ∧
  dbMap o = ∅ ∧ buckets o = [].
Proof.
  intros Hpath Hwalk Hsize. unfold Run. simpl.
  apply String.eqb_neq in Hpath. rewrite Hpath, Hwalk. simpl. rewrite Hsize. simpl.
  unfold Fprintf, Write. destruct (failure (Stderr cmd)) as [e|]; simpl; by split_and!.
Qed.

(** C9. Two runs that differ only in the value given to [-c] (and in the
    value the [concurrency] field held before) leave the same index, the
    same counters, the same shard map, the same standard output and
    standard error, and return the same error: the value is stored in the
    command and read by nothing. *)
Theorem Run_ignores_concurrency (cmd : Command) (w : World) (args : Flags) (c c' k k' : Z) :
  let o := Run (withConcurrency cmd k) w (withC args c) in
  let o' := Run (withConcurrency cmd k') w (withC args c') in
  dbMap o = dbMap o' ∧ buckets o = buckets o' ∧ err o = err o' ∧
  Stdout (final o) = Stdout (final o') ∧ Stderr (final o) = Stderr (final o') ∧
  shardPaths (final o) = shardPaths (final o') ∧
  dbPath (final o) = dbPath (final o') ∧ exact (final o) = exact (final o') ∧
  concurrency (final o) = c ∧ concurrency (final o') = c'.
Proof.
  unfold Run, withConcurrency, withC. simpl.
  destruct (String.eqb (flagDbPath args) EmptyString); [by split_and!|].
  destruct (Filepath.Walk discover _ _ _) as [paths [e|]]; [by split_and!|]. simpl.
  destruct (size paths =? 0)%nat.
  { by destruct (Fprintf _ _). }
  destruct (scanShards _ _ _ _) as [s [e|]]; [by split_and!|]. simpl.
  by destruct (Write _ _).
Qed.

End RunProperties.

Section RunExamples.
Import Scenario.
#[local] Existing Instance collaborators.

(** [Run_no_shards] on a data directory that holds a database and a
    retention policy and no shard. *)
Lemma Run_no_shards_witness :
  let o := Run fresh noShards defaultFlags in
  Stderr (final o) = (Fprintf (Stderr fresh) ("No shards under " +:+ "data" +:+ nl)).1 ∧
  err o = (Fprintf (Stderr fresh) ("No shards under " +:+ "data" +:+ nl)).2 ∧
  (failure (Stderr fresh) = None →
     err o = None ∧
     written (Stderr (final o))
       = written (Stderr fresh) ++ ["No shards under " +:+ "data" +:+ nl]) ∧
  Stdout (final o) = Stdout fresh ∧
  dbMap o = ∅ ∧ buckets o = [].
Proof.
  apply (Run_no_shards fresh noShards defaultFlags ∅).
  - discriminate.
  - vm_compute. reflexivity.
  - reflexivity.
Defined.

(** C2 fails as stated. The run over a data directory without shards
    returns no error and writes the diagnostic, and standard output stays
    empty: the header, the rules and a total row of zeros are not printed. *)
Lemma no_shards_prints_no_report :
  let o := Run fresh noShards defaultFlags in
  err o = None ∧
  written (Stderr (final o)) = ["No shards under data" +:+ nl] ∧
  written (Stdout (final o)) = [] ∧
  written (Stdout (final o)) ≠ [Header; Rule; Rule; Total " (estimated)" 0 0 0].
Proof. by vm_compute. Qed.

(** The run over that shard reports both keys of the readable file. *)
Example oneBadFile_report :
  let o := Run fresh oneBadFile exactFlags in
  err o = None ∧
  written (Stdout (final o))
    = [Header; Rule; Row "db0" "autogen" "cpu" 1 1 1; Row "db0" "autogen" "mem" 1 1 1;
       Rule; Total "" 2 2 2] ∧
  written (Stderr (final o)) = ["error: bad.tsm: invalid TSM file. Skipping." +:+ nl].
Proof. by vm_compute. Qed.

End RunExamples.

(** ** The report *)
Section Report.
Context `{Collaborators}.

Local Abbreviation dbmap := (gmap string (gmap string (gmap string nat))).

Lemma elem_of_range {K V} `{Countable K} (ro : RangeOrder) (m : gmap K V) k v :
  (k, v) ∈ range ro m ↔ m !! k = Some v.
Proof. unfold range. by rewrite order_perm, elem_of_map_to_list. Qed.

Lemma NoDup_range {K V} `{Countable K} (ro : RangeOrder) (m : gmap K V) : NoDup (range ro m).
Proof. unfold range. rewrite order_perm. apply NoDup_map_to_list. Qed.

Lemma NoDup_fst_range {K V} `{Countable K} (ro : RangeOrder) (m : gmap K V) :
  NoDup (range ro m).*1.
Proof. unfold range. rewrite order_perm. apply NoDup_fst_map_to_list. Qed.

(** The report meets every bucket of the index, once. *)
Lemma elem_of_rows (ro : RangeOrder) (dbMap : dbmap) d r m p :
  (d, r, m, p) ∈ rows ro dbMap ↔ bucket dbMap d r m = Some p.
Proof.
  unfold rows, bucket. rewrite list_elem_of_bind. split.
  - intros ([d' db] & Hin & Hdb). apply elem_of_range in Hdb.
    apply list_elem_of_bind in Hin as ([r' rp] & Hin & Hrp). apply elem_of_range in Hrp.
    apply list_elem_of_bind in Hin as ([m' p'] & Hin & Hm). apply elem_of_range in Hm.
    apply list_elem_of_singleton in Hin. simplify_eq. by rewrite Hdb, Hrp.
  - intros Hb. destruct (dbMap !! d) as [db|] eqn:Hdb; [|done].
    destruct (db !! r) as [rp|] eqn:Hrp; [|done].
    exists (d, db). split; [|by apply elem_of_range].
    apply list_elem_of_bind. exists (r, rp). split; [|by apply elem_of_range].
    apply list_elem_of_bind. exists (m, p). split; [|by apply elem_of_range].
    by apply list_elem_of_singleton.
Qed.

Lemma NoDup_rows (ro : RangeOrder) (dbMap : dbmap) : NoDup (rows ro dbMap).
Proof.
  unfold rows. apply NoDup_bind; [| |apply NoDup_range].
  - intros [d1 db1] [d2 db2] [[[d r] m] p] H1%elem_of_range H2%elem_of_range Hy1 Hy2.
    apply list_elem_of_bind in Hy1 as ([r1 rp1] & Hy1 & _).
    apply list_elem_of_bind in Hy1 as ([m1 p1] & Hy1 & _).
    apply list_elem_of_bind in Hy2 as ([r2 rp2] & Hy2 & _).
    apply list_elem_of_bind in Hy2 as ([m2 p2] & Hy2 & _).
    apply list_elem_of_singleton in Hy1, Hy2. simplify_eq. done.
  - intros [d db] _. apply NoDup_bind; [| |apply NoDup_range].
    + intros [r1 rp1] [r2 rp2] [[[d' r] m] p] H1%elem_of_range H2%elem_of_range Hy1 Hy2.
      apply list_elem_of_bind in Hy1 as ([m1 p1] & Hy1 & _).
      apply list_elem_of_bind in Hy2 as ([m2 p2] & Hy2 & _).
      apply list_elem_of_singleton in Hy1, Hy2. simplify_eq. done.
    + intros [r rp] _. apply NoDup_bind; [| |apply NoDup_range].
      * intros [m1 p1] [m2 p2] y _ _ Hy1 Hy2.
        apply list_elem_of_singleton in Hy1, Hy2. by simplify_eq.
      * intros [m p] _. apply NoDup_singleton.
Qed.

Lemma foldl_bind {A B C} (f : C → B → C) (g : A → list B) (l : list A) (c : C) :
  foldl f c (l ≫= g) = foldl (λ c x, foldl f c (g x)) c l.
Proof.
  revert c. induction l as [|x l IH]; intros c; [done|].
  rewrite bind_cons, foldl_app. apply IH.
Qed.

Lemma foldl_ext {A B} (f g : A → B → A) (l : list B) (a : A) :
  (∀ a x, f a x = g a x) → foldl f a l = foldl g a l.
Proof. intros Hfg. revert a. induction l as [|x l IH]; intros a; simpl; [done|]. by rewrite Hfg. Qed.

(** The three nested loops are one loop over the buckets. *)
Lemma reportRows_rows (ro : RangeOrder) (dbMap : dbmap) h t :
  reportRows ro dbMap h t
  = foldl (λ t '(d, r, m, p), reportRow h d r m p t) t (rows ro dbMap).
Proof.
  unfold reportRows, rows. rewrite foldl_bind.
  apply foldl_ext. intros t1 [d db]. rewrite foldl_bind.
  apply foldl_ext. intros t2 [r rp]. rewrite foldl_bind.
  apply foldl_ext. by intros t3 [m p].
Qed.

Lemma uint64_idemp z : uint64 (uint64 z) = uint64 z.
Proof. unfold uint64. by rewrite Z.mod_mod. Qed.

Lemma add64_uint64_l a b : add64 (uint64 a) b = uint64 (a + b).
Proof. unfold add64, uint64. by rewrite Z.add_mod_idemp_l. Qed.

Lemma uint64_small z : 0 ≤ z < 2 ^ 64 → uint64 z = z.
Proof. intros. unfold uint64. by apply Z.mod_small. Qed.

Lemma Count_range (c : Counter) : 0 ≤ Count c < 2 ^ 64.
Proof. destruct c; simpl; unfold uint64; by apply Z.mod_pos_bound. Qed.

Lemma sum_nonneg (l : list Z) : Forall (λ z, 0 ≤ z) l → 0 ≤ sum l.
Proof. induction 1; simpl; lia. Qed.

Lemma sum_bound (l : list Z) (M : Z) :
  Forall (λ z, 0 ≤ z) l → sum l < M → Forall (λ z, z < M) l.
Proof.
  induction 1 as [|z l Hz Hl IH]; simpl; intros Hsum; constructor.
  - pose proof (sum_nonneg l Hl). lia.
  - apply IH. lia.
Qed.

(** The loop over the buckets: one row each, and the three totals, all
    three sums modulo 2^64. *)
Lemma foldl_reportRow h (es : list (string * string * string * nat)) (t : tally) :
  seriesTotal t = uint64 (seriesTotal t) →
  fieldsTotal t = uint64 (fieldsTotal t) →
  c2Cardinality t = uint64 (c2Cardinality t) →
  foldl (λ t '(d, r, m, p), reportRow h d r m p t) t es
  = {| tw := tw t ++
             (rowOf h <$> es);
       c2Cardinality :=
         uint64 (c2Cardinality t
                 + sum ((λ e, mul64 (seriesOf h e.2) (fieldsOf h e.2)) <$> es));
       seriesTotal := uint64 (seriesTotal t + sum ((λ e, seriesOf h e.2) <$> es));
       fieldsTotal := uint64 (fieldsTotal t + sum ((λ e, fieldsOf h e.2) <$> es)) |}.
Proof.
  revert t. induction es as [|[[[d r] m] p] es IH]; intros t Hs Hf Hc.
  - destruct t as [l c2 st ft]. simpl in *.
    rewrite app_nil_r, !Z.add_0_r. congruence.
  - simpl. rewrite IH; simpl; try (unfold add64; by rewrite uint64_idemp).
    fold (seriesOf h p) (fieldsOf h p).
    f_equal.
    + by rewrite <-app_assoc.
    + unfold add64, uint64. rewrite Z.add_mod_idemp_l by done. by rewrite <-Z.add_assoc.
    + unfold add64, uint64. rewrite Z.add_mod_idemp_l by done. by rewrite <-Z.add_assoc.
    + unfold add64, uint64. rewrite Z.add_mod_idemp_l by done. by rewrite <-Z.add_assoc.
Qed.

(** The report: header and rule, the rows, rule and total row. *)
Lemma report_eq (ro : RangeOrder) estTitle (dbMap : dbmap) h :
  report ro estTitle dbMap h
  = [Header; Rule] ++ (rowOf h <$> rows ro dbMap) ++
    [Rule;
     Total estTitle
       (uint64 (sum ((λ e, seriesOf h e.2) <$> rows ro dbMap)))
       (uint64 (sum ((λ e, fieldsOf h e.2) <$> rows ro dbMap)))
       (uint64 (sum ((λ e, mul64 (seriesOf h e.2) (fieldsOf h e.2)) <$> rows ro dbMap)))].
Proof.
  unfold report. rewrite reportRows_rows, foldl_reportRow by done.
  reflexivity.
Qed.

Lemma bind_perm {A B} (f g : A → list B) (l l' : list A) :
  l ≡ₚ l' → (∀ x, f x ≡ₚ g x) → l ≫= f ≡ₚ l' ≫= g.
Proof.
  intros Hl Hfg. rewrite Hl. clear Hl l.
  induction l' as [|x l IH]; [done|].
  rewrite !bind_cons. by rewrite IH, Hfg.
Qed.

(** The buckets the report meets are the same in every order of the maps. *)
Lemma rows_perm (ro ro' : RangeOrder) (dbMap : dbmap) : rows ro dbMap ≡ₚ rows ro' dbMap.
Proof.
  unfold rows, range. apply bind_perm; [by rewrite !order_perm|].
  intros [d db]. apply bind_perm; [by rewrite !order_perm|].
  intros [r rp]. apply bind_perm; [by rewrite !order_perm|].
  by intros [m p].
Qed.

Lemma sum_perm (l l' : list Z) : l ≡ₚ l' → sum l = sum l'.
Proof. induction 1; simpl; lia. Qed.

(** C5. For every index, each row of the report shows for its triple the
    series count, the field count and their product (in [uint64]
    arithmetic), the report has one row for every bucket of the index and
    no other, and the total row shows the sum of the series counts, the sum
    of the field counts and the sum of the per-triple products, each summed
    on its own; where the sum of the products fits 64 bits, the products and
    their total are the exact integers. *)
Theorem report_rows_and_totals (ro : RangeOrder) estTitle (dbMap : dbmap) h :
  let es := rows ro dbMap in
  let c2 p := mul64 (seriesOf h p) (fieldsOf h p) in
  report ro estTitle dbMap h
  = [Header; Rule] ++
    (rowOf h <$> es) ++
    [Rule;
     Total estTitle
       (uint64 (sum ((λ e, seriesOf h e.2) <$> es)))
       (uint64 (sum ((λ e, fieldsOf h e.2) <$> es)))
       (uint64 (sum ((λ e, c2 e.2) <$> es)))] ∧
  NoDup es ∧
  (∀ d r m p, (d, r, m, p) ∈ es ↔ bucket dbMap d r m = Some p) ∧
  (sum ((λ e, seriesOf h e.2 * fieldsOf h e.2) <$> es) < 2 ^ 64 →
     (∀ e, e ∈ es → c2 e.2 = seriesOf h e.2 * fieldsOf h e.2) ∧
     uint64 (sum ((λ e, c2 e.2) <$> es))
     = sum ((λ e, seriesOf h e.2 * fieldsOf h e.2) <$> es)).
Proof.
  simpl. split_and!.
  - apply report_eq.
  - apply NoDup_rows.
  - intros. apply elem_of_rows.
  - intros Hsum.
    assert (Forall (λ z, 0 ≤ z) ((λ e, seriesOf h e.2 * fieldsOf h e.2) <$> rows ro dbMap))
      as Hpos.
    { apply Forall_fmap, Forall_forall. intros e _. simpl.
      pose proof (Count_range (series (deref h e.2))).
      pose proof (Count_range (fields (deref h e.2))).
      unfold seriesOf, fieldsOf. nia. }
    assert (∀ e, e ∈ rows ro dbMap →
                 mul64 (seriesOf h e.2) (fieldsOf h e.2) = seriesOf h e.2 * fieldsOf h e.2)
      as Hexact.
    { intros e He. apply uint64_small.
      pose proof (sum_bound _ _ Hpos Hsum) as Hlt.
      rewrite Forall_fmap, Forall_forall in Hlt, Hpos.
      specialize (Hlt e He). specialize (Hpos e He). simpl in *. lia. }
    split; [done|].
    rewrite (list_fmap_ext (λ e, mul64 (seriesOf h e.2) (fieldsOf h e.2))
               (λ e, seriesOf h e.2 * fieldsOf h e.2) (rows ro dbMap)).
    + apply uint64_small. split; [by apply sum_nonneg | done].
    + intros i e He. apply Hexact. by eapply list_elem_of_lookup_2.
Qed.

End Report.

(** ** A run that scans shards *)
Section Scanned.
Context `{Collaborators}.

(** A run whose discovery and scan succeed ends with the report: the
    rows in the order of the run, a permutation of the buckets in listed
    order, and totals that do not depend on the order. *)
Lemma Run_scanned (cmd : Command) (w : World) (args : Flags) paths (s : scan) :
  flagDbPath args ≠ EmptyString →
  Filepath.Walk discover (flagDbPath args) (lstat w (flagDbPath args)) (shardPaths cmd)
    = (paths, None) →
  size paths ≠ 0%nat →
  scanShards w (if flagExact args then NewExactCounter else NewHLLCounter)
    (range (ranges w) paths) {| stderr := Stderr cmd; toto := ∅; cells := [] |}
    = (s, None) →
  failure (Stdout cmd) = None →
  let o := Run cmd w args in
  let canon := rows listed (toto s) in
  err o = None ∧ dbMap o = toto s ∧ buckets o = cells s ∧
  Stderr (final o) = stderr s ∧ shardPaths (final o) = paths ∧
  ∃ rs,
    rs ≡ₚ rowOf (cells s) <$> canon ∧
    written (Stdout (final o))
    = written (Stdout cmd) ++ [Header; Rule] ++ rs ++
      [Rule;
       Total (if flagExact args then EmptyString else " (estimated)")
         (uint64 (sum ((λ e, seriesOf (cells s) e.2) <$> canon)))
         (uint64 (sum ((λ e, fieldsOf (cells s) e.2) <$> canon)))
         (uint64 (sum ((λ e, mul64 (seriesOf (cells s) e.2) (fieldsOf (cells s) e.2))
                         <$> canon)))].
Proof.
  intros Hpath Hwalk Hsize Hscan Hout. unfold Run. simpl.
  apply String.eqb_neq in Hpath. rewrite Hpath, Hwalk. simpl.
  apply Nat.eqb_neq in Hsize. rewrite Hsize.
  destruct (flagExact args); rewrite Hscan; unfold Write; rewrite Hout; simpl;
    (split_and!; try done);
    exists (rowOf (cells s) <$> rows (ranges w) (toto s));
    (split; [by rewrite (rows_perm (ranges w) listed)|]);
    rewrite report_eq;
    rewrite !(sum_perm _ _ (fmap_Permutation _ _ _ (rows_perm (ranges w) listed (toto s))));
    done.
Qed.

End Scanned.

Section TwoShards.
Import Scenario.
#[local] Existing Instance collaborators.

(** C4. Two shards of [db0]/[autogen] with one storage file each, holding
    the keys [cpu,host=a#!~#value], [cpu,host=b#!~#value] and
    [mem,host=a#!~#used], each key in the first file, in the second, or in
    both: in exact mode, whatever the order in which the maps are ranged
    over, the report has the row of [cpu] with 2 series, 1 field and 2
    combined, the row of [mem] with 1, 1 and 1, and the total row 3, 2, 3;
    the counters of the index hold the same counts. *)
Theorem scenario_two_shards (ro : RangeOrder) (pa pb pm : placement) :
  let o := Run fresh (split ro pa pb pm) exactFlags in
  err o = None ∧
  (∃ rs,
      written (Stdout (final o)) = [Header; Rule] ++ rs ++ [Rule; Total "" 3 2 3] ∧
      rs ≡ₚ [Row "db0" "autogen" "cpu" 2 1 2; Row "db0" "autogen" "mem" 1 1 1]) ∧
  (∃ cpu mem,
      bucket (dbMap o) "db0" "autogen" "cpu" = Some cpu ∧
      bucket (dbMap o) "db0" "autogen" "mem" = Some mem ∧
      seriesOf (buckets o) cpu = 2 ∧ fieldsOf (buckets o) cpu = 1 ∧
      seriesOf (buckets o) mem = 1 ∧ fieldsOf (buckets o) mem = 1) ∧
  size (shardPaths (final o)) = 2%nat.
Proof.
  set (w := split ro pa pb pm).
  set (paths := (<[2 := shard2]> {[ 1 := shard1 ]} : gmap Z string)).
  assert (Filepath.Walk discover "data" (lstat w "data") (shardPaths fresh) = (paths, None))
    as Hwalk by (vm_compute; reflexivity).
  assert (size paths ≠ 0%nat) as Hsize by (vm_compute; discriminate).
  assert (map_to_list paths = [(2, shard2); (1, shard1)]) as Hlist
    by (vm_compute; reflexivity).
  pose proof (order_perm ro _ (map_to_list paths)) as Hord.
  rewrite Hlist in Hord. symmetry in Hord.
  apply Permutation_length_2_inv in Hord.
  assert (∃ l, order ro _ (map_to_list paths) = l ∧
               (l = [(2, shard2); (1, shard1)] ∨ l = [(1, shard1); (2, shard2)]))
    as (l & Hrange & Hl) by eauto.
  clear Hord Hlist.
  pose (r := scanShards w NewExactCounter l
               {| stderr := Stderr fresh; toto := ∅; cells := [] |}).
  assert (scanShards w NewExactCounter (range (ranges w) paths)
            {| stderr := Stderr fresh; toto := ∅; cells := [] |} = (r.1, None)) as Hscan.
  { unfold range. change (ranges w) with ro. rewrite Hrange.
    fold r. rewrite (surjective_pairing r) at 1. f_equal.
    destruct Hl as [-> | ->]; destruct pa, pb, pm; vm_compute; reflexivity. }
  destruct (Run_scanned fresh w exactFlags paths r.1 ltac:(done) Hwalk Hsize Hscan eq_refl)
    as (He & Hd & Hb & _ & Hp & rs & Hrs & Hout).
  clear Hscan Hwalk Hsize Hrange.
  split_and!.
  - exact He.
  - exists rs. split.
    + rewrite Hout. simpl. do 3 f_equal.
      destruct Hl as [-> | ->]; destruct pa, pb, pm; vm_compute; reflexivity.
    + rewrite Hrs.
      destruct Hl as [-> | ->]; destruct pa, pb, pm; vm_compute;
        first [ reflexivity | apply perm_swap ].
  - rewrite Hd, Hb.
    exists (default 0%nat (bucket (toto r.1) "db0" "autogen" "cpu")),
           (default 0%nat (bucket (toto r.1) "db0" "autogen" "mem")).
    destruct Hl as [-> | ->]; destruct pa, pb, pm; vm_compute; split_and!; reflexivity.
  - rewrite Hp. vm_compute. reflexivity.
Qed.

End TwoShards.

(** ** The walk *)
Section WalkProperties.
Import Filepath.

Lemma node_ind' (P : node → Prop) :
  (∀ name, P (File name)) →
  (∀ name e, P (Broken name e)) →
  (∀ name readErr entries, Forall P entries → P (Dir name readErr entries)) →
  ∀ n, P n.
Proof.
  intros HF HB HD. fix IH 1. intros [name|name readErr entries|name e].
  - apply HF.
  - apply HD. induction entries as [|e es IHes]; constructor; [apply IH | apply IHes].
  - apply HB.
Qed.

Context {S : Type}.
Variable fn : S → string → walkArg → S * option walkErr.

Lemma walk_Dir path name readErr entries s :
  walk fn path (Dir name readErr entries) s
  = let '(s1, err1) := fn s path (Stat {| Name := name; IsDir := true |} readErr) in
    match readErr, err1 with
    | None, None => walkLoop fn path entries s1
    | _, _ => (s1, err1)
    end.
Proof.
  simpl. destruct (fn s path _) as [s1 err1].
  destruct readErr, err1; try done.
  revert s1. induction entries as [|e es IH]; intros s1; simpl; [done|].
  destruct (walk fn _ e s1) as [s' [[|err]|]].
  - destruct e; [done | apply IH | apply IH].
  - done.
  - apply IH.
Qed.

End WalkProperties.

Section WalkTrace.
Import Filepath.
Context {S : Type}.
Variable fn : S → string → walkArg → S * option walkErr.

Lemma walkLoop_traced es :
  Forall (λ n, ∀ path s l,
            walk (traced fn) path n (s, l)
            = (((walk fn path n s).1, l ++ calls fn path n s), (walk fn path n s).2)) es →
  ∀ path s l,
    walkLoop (traced fn) path es (s, l)
    = (((walkLoop fn path es s).1, l ++ callsLoop fn path es s), (walkLoop fn path es s).2).
Proof.
  induction 1 as [|e es He Hes IH]; intros path s l.
  - unfold callsLoop. simpl. by rewrite app_nil_r.
  - unfold callsLoop. simpl. rewrite !He.
    destruct (walk fn (Join path (nodeName e)) e s) as [s' r]. simpl.
    destruct r as [[|err]|]; simpl.
    + destruct e; simpl; rewrite ?app_nil_r; try done;
        rewrite !IH; simpl; by rewrite app_assoc.
    + done.
    + rewrite !IH. simpl. by rewrite app_assoc.
Qed.

(** A traced walk is the walk, with the calls it makes appended to the log. *)
Lemma walk_traced n path s l :
  walk (traced fn) path n (s, l)
  = (((walk fn path n s).1, l ++ calls fn path n s), (walk fn path n s).2).
Proof.
  revert path s l.
  induction n as [name|name e|name readErr entries IH] using node_ind'; intros path s l.
  - unfold calls. simpl. unfold traced. simpl. by destruct (fn s path _).
  - unfold calls. simpl. unfold traced. simpl. by destruct (fn s path _).
  - pose proof (walkLoop_traced _ IH) as IH'. clear IH. rename IH' into IH.
    unfold calls. rewrite !walk_Dir.
    unfold traced at 1 3. simpl.
    destruct (fn s path _) as [s1 err1].
    destruct readErr, err1; try done.
    rewrite !IH. simpl. by rewrite <-app_assoc.
Qed.

Lemma walkLoop_traced_all es path s l :
  walkLoop (traced fn) path es (s, l)
  = (((walkLoop fn path es s).1, l ++ callsLoop fn path es s), (walkLoop fn path es s).2).
Proof. apply walkLoop_traced, Forall_forall. intros. apply walk_traced. Qed.

Lemma calls_leaf path n s :
  (∀ name ro es, n ≠ Dir name ro es) → calls fn path n s = [(path, argOf n)].
Proof.
  intros Hn. unfold calls. destruct n as [name|name ro es|name e]; simpl.
  - unfold traced. simpl. by destruct (fn s path _).
  - by destruct (Hn name ro es).
  - unfold traced. simpl. by destruct (fn s path _).
Qed.

Lemma calls_Dir path name readErr entries s :
  calls fn path (Dir name readErr entries) s
  = (path, argOf (Dir name readErr entries)) ::
    match readErr, (fn s path (argOf (Dir name readErr entries))).2 with
    | None, None => callsLoop fn path entries (fn s path (argOf (Dir name readErr entries))).1
    | _, _ => []
    end.
Proof.
  unfold calls. rewrite walk_Dir. unfold traced at 1. cbn [argOf fst snd].
  destruct (fn s path (Stat {| Name := name; IsDir := true |} readErr)) as [s1 err1] eqn:Hfn.
  cbn [fst snd].
  destruct readErr, err1; rewrite ?Hfn; try done.
  by rewrite walkLoop_traced_all.
Qed.

Lemma callsLoop_cons path e es s :
  callsLoop fn path (e :: es) s
  = calls fn (Join path (nodeName e)) e s ++
    match (walk fn (Join path (nodeName e)) e s).2 with
    | None => callsLoop fn path es (walk fn (Join path (nodeName e)) e s).1
    | Some SkipDir =>
        match e with
        | File _ => []
        | _ => callsLoop fn path es (walk fn (Join path (nodeName e)) e s).1
        end
    | Some (Failure _) => []
    end.
Proof.
  unfold callsLoop at 1. simpl. rewrite walk_traced.
  destruct (walk fn (Join path (nodeName e)) e s) as [s' r]. simpl.
  pose proof (walkLoop_traced_all es) as Hes.
  destruct r as [[|err]|]; simpl.
  - destruct e; simpl; rewrite ?app_nil_r; try done; by rewrite Hes.
  - by rewrite app_nil_r.
  - by rewrite Hes.
Qed.

(** The state a walk leaves is the state its calls leave, one after the other. *)
Lemma walk_state n :
  ∀ path s, (walk fn path n s).1 = foldl (λ s c, (fn s c.1 c.2).1) s (calls fn path n s).
Proof.
  induction n as [name|name e|name readErr entries IH] using node_ind'; intros path s.
  - rewrite calls_leaf by done. done.
  - rewrite calls_leaf by done. done.
  - rewrite calls_Dir, walk_Dir. cbn [argOf foldl fst snd].
    destruct (fn s path (Stat {| Name := name; IsDir := true |} readErr))
      as [s1 err1] eqn:Hfn.
    cbn [fst snd].
    destruct readErr, err1; rewrite ?Hfn; cbn [fst snd foldl]; try done.
    clear Hfn s. revert s1. induction IH as [|e es He Hes IHes]; intros s; [done|].
    rewrite callsLoop_cons, foldl_app, <-He. simpl.
    destruct (walk fn (Join path (nodeName e)) e s) as [s' r]. simpl.
    destruct r as [[|err]|].
    + destruct e; [done | apply IHes | apply IHes].
    + done.
    + apply IHes.
Qed.

(** The first call of a walk is on the node it starts at. *)
Lemma calls_head path n s : (path, argOf n) ∈ calls fn path n s.
Proof.
  destruct n as [name|name ro es|name e].
  - rewrite calls_leaf by done. by left.
  - rewrite calls_Dir. by left.
  - rewrite calls_leaf by done. by left.
Qed.

End WalkTrace.

Section Discover.
Import Filepath.
Context `{Collaborators}.

Lemma reserved_eqb name :
  String.eqb name SeriesFileDirectory || String.eqb name "index" = true ↔ reserved name.
Proof.
  unfold reserved. rewrite orb_true_iff, !String.eqb_eq. done.
Qed.

Lemma discover_reserved (sp : gmap Z string) path name :
  reserved name →
  discover sp path (Stat {| Name := name; IsDir := true |} None) = (sp, Some SkipDir).
Proof. intros Hr%reserved_eqb. unfold discover. simpl. by rewrite Hr. Qed.

Lemma discover_plain (sp : gmap Z string) path name :
  ¬ reserved name →
  discover sp path (Stat {| Name := name; IsDir := true |} None)
  = (match Strconv.Atoi name with
     | Some id => <[uint64 id := path]> sp
     | None => sp
     end, None).
Proof.
  intros Hr. unfold discover. simpl.
  destruct (String.eqb name SeriesFileDirectory || String.eqb name "index") eqn:Hb.
  - by apply reserved_eqb in Hb.
  - by destruct (Strconv.Atoi name).
Qed.

(** What a call registers. *)
Lemma elem_of_registers k q path a :
  (k, q) ∈ registers path a ↔
  q = path ∧ ∃ name id,
    a = Stat {| Name := name; IsDir := true |} None ∧ ¬ reserved name ∧
    Strconv.Atoi name = Some id ∧ k = uint64 id.
Proof.
  unfold registers.
  destruct a as [[name [|]] [e|]|e]; simpl;
    try (rewrite map_to_list_empty; split; [by intros ?%elem_of_nil | naive_solver]).
  destruct (String.eqb name SeriesFileDirectory || String.eqb name "index") eqn:Hb; simpl.
  - apply reserved_eqb in Hb. rewrite map_to_list_empty.
    split; [by intros ?%elem_of_nil | naive_solver].
  - assert (¬ reserved name) as Hr by (rewrite <-reserved_eqb; congruence).
    destruct (Strconv.Atoi name) as [id|] eqn:Hid; simpl.
    + rewrite insert_empty, map_to_list_singleton, list_elem_of_singleton.
      split; [intros; simplify_eq; eauto 10 | naive_solver].
    + rewrite map_to_list_empty. split; [by intros ?%elem_of_nil | naive_solver].
Qed.

Lemma discover_assign (sp : gmap Z string) path a :
  (discover sp path a).1 = assign sp (registers path a).
Proof.
  unfold registers, assign, discover.
  destruct a as [[name [|]] [e|]|e]; simpl; rewrite ?map_to_list_empty; try done.
  destruct (String.eqb name SeriesFileDirectory || String.eqb name "index"); simpl;
    rewrite ?map_to_list_empty; try done.
  destruct (Strconv.Atoi name) as [id|]; simpl; rewrite ?map_to_list_empty; try done.
  by rewrite insert_empty, map_to_list_singleton.
Qed.

(** The shard map after the walk holds the registrations, the later ones
    over the earlier ones. *)
Lemma walk_discover_assign n path (sp : gmap Z string) :
  (walk discover path n sp).1 = assign sp (registrations path n sp).
Proof.
  rewrite walk_state. unfold registrations, assign. rewrite foldl_bind.
  apply foldl_ext. intros m [p a]. apply discover_assign.
Qed.

Lemma walk_discover_File path name (sp : gmap Z string) :
  walk discover path (File name) sp = (sp, None).
Proof. done. Qed.

(** Every call of the walk is on a node the walk reaches. *)
Lemma discover_calls_sound n :
  ∀ path (sp : gmap Z string) c,
    c ∈ calls discover path n sp → ∃ n', reaches path n c.1 n' ∧ c.2 = argOf n'.
Proof.
  induction n as [name|name e|name readErr entries IH] using node_ind'; intros path sp c.
  - rewrite calls_leaf by done. intros ->%list_elem_of_singleton.
    eexists. split; [apply reaches_self | done].
  - rewrite calls_leaf by done. intros ->%list_elem_of_singleton.
    eexists. split; [apply reaches_self | done].
  - rewrite calls_Dir. intros [->|Hc]%elem_of_cons.
    { eexists. split; [apply reaches_self | done]. }
    destruct readErr as [e|]; [by apply elem_of_nil in Hc|].
    cbn [argOf] in Hc.
    assert (¬ reserved name) as Hr.
    { intros Hr. rewrite (discover_reserved _ _ _ Hr) in Hc. by apply elem_of_nil in Hc. }
    rewrite (discover_plain _ _ _ Hr) in Hc. cbn [fst snd] in Hc.
    revert Hc. generalize (match Strconv.Atoi name with
                           | Some id => <[uint64 id:=path]> sp
                           | None => sp
                           end).
    assert (∀ (s : gmap Z string) es,
               Forall (λ n, ∀ path (sp : gmap Z string) c,
                         c ∈ calls discover path n sp →
                         ∃ n', reaches path n c.1 n' ∧ c.2 = argOf n') es →
               c ∈ callsLoop discover path es s →
               ∃ e n', e ∈ es ∧ reaches (Join path (nodeName e)) e c.1 n' ∧ c.2 = argOf n')
      as Hloop.
    { clear. intros s es Hes. revert s.
      induction Hes as [|e es He Hes IHes]; intros s.
      - unfold callsLoop. simpl. by intros ?%elem_of_nil.
      - rewrite callsLoop_cons. intros [Hc|Hc]%elem_of_app.
        + apply He in Hc as (n' & ? & ?). exists e, n'. split; [by left | done].
        + assert (∃ s', c ∈ callsLoop discover path es s') as [s' Hc'].
          { destruct (walk discover (Join path (nodeName e)) e s) as [s' [[|err]|]];
              simpl in Hc; [destruct e| |]; try (by apply elem_of_nil in Hc); eauto. }
          apply IHes in Hc' as (e' & n' & ? & ?). exists e', n'. split; [by right | done]. }
    intros s Hc. destruct (Hloop s entries IH Hc) as (e & n' & He & Hreach & Harg).
    exists n'. split; [|done]. by eapply reaches_entry.
Qed.

(** A walk that does not fail calls on every node it reaches. *)
Lemma discover_calls_complete path n q n' :
  reaches path n q n' →
  ∀ sp : gmap Z string,
    (∀ err, (walk discover path n sp).2 ≠ Some (Failure err)) →
    (q, argOf n') ∈ calls discover path n sp.
Proof.
  induction 1 as [p n|p name entries e q n' Hr He Hreach IH]; intros sp Hok.
  { apply calls_head. }
  rewrite calls_Dir. right. cbn [argOf].
  rewrite walk_Dir, (discover_plain _ _ _ Hr) in Hok.
  rewrite (discover_plain _ _ _ Hr). cbn [fst snd].
  revert Hok. generalize (match Strconv.Atoi name with
                          | Some id => <[uint64 id:=p]> sp
                          | None => sp
                          end).
  clear sp. induction entries as [|e0 es IHes]; intros s Hok.
  { by apply elem_of_nil in He. }
  rewrite callsLoop_cons. simpl in Hok.
  destruct (walk discover (Join p (nodeName e0)) e0 s) as [s' r] eqn:Hw. cbn [fst snd].
  apply elem_of_cons in He as [->|He].
  - apply elem_of_app. left. apply IH. intros err. rewrite Hw. simpl.
    intros ->. by apply (Hok err).
  - apply elem_of_app. right.
    destruct r as [[|err]|].
    + destruct e0 as [name0|name0 ro0 es0|name0 err0].
      * by rewrite walk_discover_File in Hw.
      * by apply IHes.
      * by apply IHes.
    + by destruct (Hok err).
    + by apply IHes.
Qed.

End Discover.

Section Registration.
Import Filepath.
Context `{Collaborators}.

Lemma assign_app (m : gmap Z string) l l' : assign m (l ++ l') = assign (assign m l) l'.
Proof. unfold assign. by rewrite foldl_app. Qed.

Lemma assign_notin (m : gmap Z string) l k : k ∉ l.*1 → assign m l !! k = m !! k.
Proof.
  revert m. induction l as [|[k' p] l IH]; intros m Hk; [done|].
  simpl in *. rewrite IH by set_solver. apply lookup_insert_ne. set_solver.
Qed.

(** The last registration under a key is the path the map holds for it. *)
Lemma assign_last (m : gmap Z string) l1 l2 k p :
  k ∉ l2.*1 → assign m (l1 ++ (k, p) :: l2) !! k = Some p.
Proof.
  intros Hk. rewrite assign_app. simpl. rewrite assign_notin by done.
  apply lookup_insert_eq.
Qed.

(** A key that was registered has a last registration. *)
Lemma assign_registered (m : gmap Z string) (l : list (Z * string)) k p :
  (k, p) ∈ l → ∃ p' l1 l2, l = l1 ++ (k, p') :: l2 ∧ k ∉ l2.*1.
Proof.
  induction l as [|[k' p''] l IH] using rev_ind; [by intros ?%elem_of_nil|].
  destruct (decide (k' = k)) as [->|Hne].
  - intros _. exists p'', l, []. split; [done | set_solver].
  - intros [Hin|Hin]%elem_of_app; [|set_solver].
    destruct (IH Hin) as (p' & l1 & l2 & -> & Hk).
    exists p', l1, (l2 ++ [(k', p'')]). split; [by rewrite <-app_assoc|].
    rewrite fmap_app. set_solver.
Qed.

Lemma Walk_fst {S} (fn : S → string → walkArg → S * option walkErr) root n s :
  (Walk fn root n s).1 = (walk fn root n s).1.
Proof. unfold Walk. by destruct (walk fn root n s). Qed.

Lemma Walk_ok {S} (fn : S → string → walkArg → S * option walkErr) root n s :
  (Walk fn root n s).2 = None → ∀ err, (walk fn root n s).2 ≠ Some (Failure err).
Proof. unfold Walk. destruct (walk fn root n s) as [s' [[|e]|]]; simpl; congruence. Qed.

(** Registered entries come from directories the walk reaches, whose name
    is not reserved and is an integer for [Atoi]. *)
Lemma registrations_sound root n (sp : gmap Z string) k q :
  (k, q) ∈ registrations root n sp →
  ∃ name entries id,
    reaches root n q (Dir name None entries) ∧ ¬ reserved name ∧
    Strconv.Atoi name = Some id ∧ k = uint64 id.
Proof.
  unfold registrations. intros ([p a] & Hreg & Hc)%list_elem_of_bind.
  apply elem_of_registers in Hreg as (-> & name & id & Ha & Hr & Hid & ->).
  apply discover_calls_sound in Hc as (n' & Hreach & Harg). simpl in *. subst a.
  destruct n' as [nm|nm ro es|nm e]; simpl in Harg; [discriminate| |discriminate].
  injection Harg as -> <-. by exists nm, es, id.
Qed.

Lemma registrations_complete root n (sp : gmap Z string) q name entries id :
  (Walk discover root n sp).2 = None →
  reaches root n q (Dir name None entries) → ¬ reserved name →
  Strconv.Atoi name = Some id →
  (uint64 id, q) ∈ registrations root n sp.
Proof.
  intros Hok Hreach Hr Hid. unfold registrations. apply list_elem_of_bind.
  exists (q, argOf (Dir name None entries)). split.
  - apply elem_of_registers. split; [done|]. by exists name, id.
  - apply discover_calls_complete; [done|]. by apply Walk_ok.
Qed.

Lemma Atoi_range name id :
  Strconv.Atoi name = Some id → - 2 ^ 63 ≤ id ≤ 2 ^ 63 - 1.
Proof.
  unfold Strconv.Atoi. destruct name as [|c rest]; [done|].
  destruct (if Ascii.eqb c "-" || Ascii.eqb c "+" then rest else String c rest); [done|].
  destruct (Strconv.digits 0 _) as [v|]; [|done].
  destruct (_ && _) eqn:Hb; [|done].
  intros [= <-]. apply andb_true_iff in Hb as [?%Z.leb_le ?%Z.leb_le]. lia.
Qed.

(** C3 (as amended). For every root path and tree: the shard map after
    discovery holds the registrations of the walk in order; a directory is
    registered only if the walk reaches it, its name is not reserved and
    [strconv.Atoi] accepts its name; when the walk completes, every such
    directory whose name [Atoi] parses to a non-negative integer is
    registered, under that integer; a directory named as the series-file
    directory or ["index"] is not registered, and the walk makes no call
    below it. *)
Theorem shard_registration (root : string) (n : node) (sp : gmap Z string) :
  let out := Walk discover root n sp in
  let regs := registrations root n sp in
  out.1 = assign sp regs ∧
  (∀ k q, (k, q) ∈ regs →
          ∃ name entries id,
            reaches root n q (Dir name None entries) ∧ ¬ reserved name ∧
            Strconv.Atoi name = Some id ∧ k = uint64 id) ∧
  (out.2 = None →
   ∀ q name entries id,
     reaches root n q (Dir name None entries) → ¬ reserved name →
     Strconv.Atoi name = Some id → 0 ≤ id → (id, q) ∈ regs) ∧
  (∀ path name entries (s : gmap Z string),
      reserved name →
      walk discover path (Dir name None entries) s = (s, Some SkipDir) ∧
      calls discover path (Dir name None entries) s
        = [(path, Stat {| Name := name; IsDir := true |} None)] ∧
      registers path (Stat {| Name := name; IsDir := true |} None) = []).
Proof.
  cbv zeta. split_and!.
  - rewrite Walk_fst. apply walk_discover_assign.
  - intros k q. apply registrations_sound.
  - intros Hok q name entries id Hreach Hr Hid Hpos.
    pose proof (registrations_complete _ _ _ _ _ _ _ Hok Hreach Hr Hid) as Hin.
    pose proof (Atoi_range _ _ Hid).
    rewrite uint64_small in Hin by lia. done.
  - intros path name entries s Hr. split_and!.
    + rewrite walk_Dir. by rewrite (discover_reserved _ _ _ Hr).
    + rewrite calls_Dir. cbn [argOf]. by rewrite (discover_reserved _ _ _ Hr).
    + unfold registers. rewrite (discover_reserved _ _ _ Hr). apply map_to_list_empty.
Qed.

End Registration.

Section RegistrationExamples.
Import Scenario Filepath.
#[local] Existing Instance collaborators.

Ltac in_shards :=
  unfold oddShards; repeat first [apply list_elem_of_here | apply list_elem_of_further].

Lemma not_reserved_data : ¬ reserved "data".
Proof. intros [?|?]; discriminate. Qed.
Lemma not_reserved_db0 : ¬ reserved "db0".
Proof. intros [?|?]; discriminate. Qed.
Lemma not_reserved_autogen : ¬ reserved "autogen".
Proof. intros [?|?]; discriminate. Qed.

(** The walk of the odd tree reaches each of its shard-level directories. *)
Lemma reaches_odd_shard e :
  e ∈ oddShards → reaches "data" oddTree (Join "data/db0/autogen" (nodeName e)) e.
Proof.
  intros He.
  apply (reaches_entry "data" "data" [oddDb] oddDb); [apply not_reserved_data | by left |].
  apply (reaches_entry "data/db0" "db0" [oddRp] oddRp); [apply not_reserved_db0 | by left |].
  apply (reaches_entry "data/db0/autogen" "autogen" oddShards e);
    [apply not_reserved_autogen | done | apply reaches_self].
Qed.

(** C3 fails as stated. In the odd tree the directory ["-5"], whose name is
    no non-negative integer, is registered in the shard map, under the key
    2^64 - 5; the directory ["9223372036854775808"], whose name is a
    non-negative integer, is not registered, as [Atoi] rejects the name; and
    the directory ["4"] below [index] is not registered either. *)
Lemma shard_names_counterexample :
  let regs := registrations "data" oddTree ∅ in
  let paths := shardPaths (final (Run fresh oddNames defaultFlags)) in
  (Strconv.Atoi "-5" = Some (-5) ∧ ¬ 0 ≤ -5 ∧
   (uint64 (-5), "data/db0/autogen/-5") ∈ regs ∧
   paths !! 18446744073709551611 = Some "data/db0/autogen/-5") ∧
  (Strconv.Atoi "9223372036854775808" = None ∧
   (∀ k, (k, "data/db0/autogen/9223372036854775808") ∉ regs) ∧
   paths !! 9223372036854775808 = None) ∧
  (Strconv.Atoi "4" = Some 4 ∧
   (∀ k, (k, "data/db0/autogen/index/4") ∉ regs) ∧ paths !! 4 = None).
Proof.
  assert (registrations "data" oddTree ∅
          = [(7, "data/db0/autogen/+7"); (18446744073709551611, "data/db0/autogen/-5");
             (7, "data/db0/autogen/007"); (7, "data/db0/autogen/7")]) as Hregs
    by (vm_compute; reflexivity).
  cbv zeta. rewrite Hregs. split_and!; try (vm_compute; reflexivity).
  - lia.
  - apply list_elem_of_further, list_elem_of_here.
  - intros k Hin. repeat (apply elem_of_cons in Hin as [[= ? ?]|Hin]).
    by apply elem_of_nil in Hin.
  - intros k Hin. repeat (apply elem_of_cons in Hin as [[= ? ?]|Hin]).
    by apply elem_of_nil in Hin.
Qed.

(** [shard_registration] on the odd tree: the map is the registrations in
    order, the directory ["7"] is registered under 7, and the walk stops at
    the [index] directory although it holds a directory named ["4"]. *)
Lemma shard_registration_witness :
  (Walk discover "data" oddTree ∅).1 = assign ∅ (registrations "data" oddTree ∅) ∧
  (7, "data/db0/autogen/7") ∈ registrations "data" oddTree ∅ ∧
  walk discover "data/db0/autogen/index" (Dir "index" None [Dir "4" None []]) ∅
    = (∅, Some SkipDir).
Proof.
  destruct (shard_registration "data" oddTree ∅) as (Hmap & _ & Hreg & Hskip).
  split_and!.
  - exact Hmap.
  - apply (Hreg ltac:(vm_compute; reflexivity) _ "7" [] 7).
    + apply (reaches_odd_shard (Dir "7" None [])). in_shards.
    + intros [?|?]; discriminate.
    + reflexivity.
    + lia.
  - apply (Hskip "data/db0/autogen/index" "index" [Dir "4" None []] ∅). by right.
Defined.

(** The names ["7"], ["007"] and ["+7"] are the same shard number, and the
    run over the odd tree keeps the directory walked last. *)
Example same_id_names :
  Strconv.Atoi "7" = Some 7 ∧ Strconv.Atoi "007" = Some 7 ∧ Strconv.Atoi "+7" = Some 7 ∧
  registrations "data" oddTree ∅
    = [(7, "data/db0/autogen/+7"); (18446744073709551611, "data/db0/autogen/-5");
       (7, "data/db0/autogen/007"); (7, "data/db0/autogen/7")] ∧
  map_to_list (shardPaths (final (Run fresh oddNames defaultFlags)))
    = [(18446744073709551611, "data/db0/autogen/-5"); (7, "data/db0/autogen/7")].
Proof. split_and!; vm_compute; reflexivity. Qed.

End RegistrationExamples.

(** * Further properties of the run *)

Section ScanExtras.
Context `{Collaborators}.

Lemma listing_inr (w : World) p locs : shardFiles w p = inr locs → listing w p = locs.
Proof. unfold listing. by intros ->. Qed.

Lemma allKeys_cons (w : World) k p ps :
  allKeys w ((k, p) :: ps) = shardKeys w (listing w p) ++ allKeys w ps.
Proof. done. Qed.

Lemma allWarnings_cons (w : World) k p ps :
  allWarnings w ((k, p) :: ps) = shardWarnings w (listing w p) ++ allWarnings w ps.
Proof. done. Qed.

(** The shard loop over shards whose files can all be listed. *)
Lemma scanShards_listable (w : World) fn ps (s : scan) :
  Forall (listable w) ps →
  scanShards w fn ps s = (warns (allWarnings w ps) (countAll fn (allKeys w ps) s), None).
Proof.
  intros Hps. revert s. induction Hps as [|[k p] ps [locs Hp] Hps IH]; intros s; [done|].
  simpl in Hp. rewrite allKeys_cons, allWarnings_cons, (listing_inr _ _ _ Hp).
  simpl. rewrite (WalkShardDirs_scanFile _ _ _ _ _ Hp), IH.
  by rewrite countAll_app, warns_app, countAll_warns.
Qed.

(** The shard loop up to the first shard whose files cannot be listed. *)
Lemma scanShards_unlistable (w : World) fn ok k p rest e (s : scan) :
  Forall (listable w) ok →
  shardFiles w p = inl e →
  scanShards w fn (ok ++ (k, p) :: rest) s
  = (warn (warns (allWarnings w ok) (countAll fn (allKeys w ok) s))
          (p +:+ ": " +:+ Error e +:+ nl), Some e).
Proof.
  intros Hok Hp. revert s. induction Hok as [|[k' p'] ok [locs Hp'] Hok IH]; intros s.
  - simpl. unfold WalkShardDirs. by rewrite Hp.
  - simpl in Hp'. rewrite allKeys_cons, allWarnings_cons, (listing_inr _ _ _ Hp').
    simpl. rewrite (WalkShardDirs_scanFile _ _ _ _ _ Hp'), IH.
    by rewrite countAll_app, warns_app, countAll_warns.
Qed.

(** What every step of the shard loop keeps, the loop keeps. *)
Lemma scanShards_invariant (P : scan → Prop) (w : World) fn ps (s : scan) :
  (∀ db rp k s, P s → P (countKey fn db rp k s)) →
  (∀ s m, P s → P (warn s m)) →
  P s → P (scanShards w fn ps s).1.
Proof.
  intros Hkey Hwarn.
  assert (∀ ks s, P s → P (countAll fn ks s)) as Hall.
  { induction ks as [|[[db rp] k] ks IH]; intros s' Hs; [done|]. simpl. auto. }
  assert (∀ ms s, P s → P (warns ms s)) as Hwarns.
  { induction ms as [|m ms IH]; intros s' Hs; [done|]. simpl. auto. }
  revert s. induction ps as [|[k p] ps IH]; intros s Hs; [done|].
  simpl. destruct (shardFiles w p) as [e|locs] eqn:Hp.
  - unfold WalkShardDirs. rewrite Hp. simpl. auto.
  - rewrite (WalkShardDirs_scanFile _ _ _ _ _ Hp). auto.
Qed.

(** The index a run leaves is the empty one or the one of a shard loop. *)
Lemma Run_index (cmd : Command) (w : World) (args : Flags) :
  (dbMap (Run cmd w args) = ∅ ∧ buckets (Run cmd w args) = []) ∨
  ∃ ps,
    let s := (scanShards w (if flagExact args then NewExactCounter else NewHLLCounter)
                ps (scanStart cmd)).1 in
    dbMap (Run cmd w args) = toto s ∧ buckets (Run cmd w args) = cells s.
Proof.
  unfold Run, scanStart. simpl.
  destruct (String.eqb (flagDbPath args) EmptyString); [by left|].
  destruct (Filepath.Walk discover _ _ _) as [paths [e|]]; [by left|]. simpl.
  destruct (size paths =? 0)%nat.
  { left. by destruct (Fprintf _ _). }
  right. exists (range (ranges w) paths).
  destruct (flagExact args);
    destruct (scanShards _ _ _ _) as [s [e|]]; simpl; try done;
    by destruct (Write _ _).
Qed.

End ScanExtras.

Section RoutingExtras.
Context `{Collaborators}.

Lemma countKey_keeps fn db rp key (s : scan) d r m q :
  bucket (toto s) d r m = Some q →
  bucket (toto (countKey fn db rp key s)) d r m = Some q.
Proof.
  intros Hq. unfold countKey.
  destruct (Bytes.Cut key keyFieldSeparator) as [[seriesKey field] found].
  destruct (initFieldsAndSeries _ _ _ _ _ _) as [[p toto'] h'] eqn:Hinit.
  apply initFieldsAndSeries_keeps in Hinit as [Hk _]. simpl. eauto.
Qed.

Lemma countAll_snoc fn ks d r k (s : scan) :
  countAll fn (ks ++ [(d, r, k)]) s = countKey fn d r k (countAll fn ks s).
Proof. unfold countAll. by rewrite foldl_app. Qed.

Lemma routed_snoc ks d0 r0 k0 d r m :
  routed (ks ++ [(d0, r0, k0)]) d r m
  = routed ks d r m ++
    (if decide ((d0, r0, measurementOfKey k0) = (d, r, m)) then [k0] else []).
Proof. unfold routed. rewrite omap_app. simpl. by case_decide. Qed.

(** After the keys [ks] are counted into the empty index: a triple has a
    bucket exactly when a key was routed to it, and the two counters of the
    bucket have been handed the routed keys, in order, and nothing else. *)
Lemma countAll_routes fn ks (s0 : scan) :
  toto s0 = ∅ → cells s0 = [] →
  let s := countAll fn ks s0 in
  indexWf (toto s) (cells s) ∧
  ∀ d r m,
    match bucket (toto s) d r m with
    | Some p =>
        routed ks d r m ≠ [] ∧
        cells s !! p
        = Some {| fields := foldl (λ c k, Add (fieldOfKey k) c) (fn ()) (routed ks d r m);
                  series := foldl (λ c k, Add k c) (fn ()) (routed ks d r m) |}
    | None => routed ks d r m = []
    end.
Proof.
  intros Ht Hc. induction ks as [|[[d0 r0] k0] ks IH] using rev_ind.
  - simpl. rewrite Ht, Hc. split; [apply indexWf_empty|]. intros d r m. by rewrite bucket_empty.
  - cbv zeta in *. destruct IH as [Hwf IH]. rewrite countAll_snoc.
    set (s := countAll fn ks s0) in *.
    destruct (countKey_spec fn d0 r0 k0 s Hwf) as (p & Hp & Hcell & Hcells & Hother & Hwf' & _).
    split; [done|]. intros d r m. rewrite routed_snoc.
    destruct (decide ((d0, r0, measurementOfKey k0) = (d, r, m))) as [Heq|Hne].
    + injection Heq as <- <- <-. unfold measurementOfKey. rewrite Hp.
      split; [by destruct (routed ks d0 r0 _)|].
      rewrite Hcell, !foldl_app. simpl. unfold cellBefore.
      specialize (IH d0 r0 (ParseKey (Bytes.Cut k0 keyFieldSeparator).1.1)).
      unfold measurementOfKey in *.
      destruct (bucket (toto s) d0 r0 _) as [q|] eqn:Hq.
      * destruct IH as [_ IH]. unfold deref. rewrite IH. done.
      * rewrite IH. done.
    + rewrite app_nil_r.
      assert ((d, r, m) ≠ (d0, r0, ParseKey (Bytes.Cut k0 keyFieldSeparator).1.1)) as Hne'
        by (unfold measurementOfKey in Hne; congruence).
      rewrite (Hother _ _ _ Hne'). specialize (IH d r m).
      destruct (bucket (toto s) d r m) as [q|] eqn:Hq; [|done].
      destruct IH as [Hr IH]. split; [done|]. rewrite <-IH.
      apply Hcells.
      * intros ->. destruct Hwf' as [_ Hinj]. apply Hne'.
        eapply Hinj; [|exact Hp]. by rewrite (Hother _ _ _ Hne').
      * destruct Hwf as [Hlt _]. eauto.
Qed.

End RoutingExtras.

Section RunExtras.
Context `{Collaborators}.

(** The mode of a run: its counter factory and the suffix of its total row. *)
Local Abbreviation fnOf args := (if flagExact args then NewExactCounter else NewHLLCounter).
Local Abbreviation titleOf args := (if flagExact args then EmptyString else " (estimated)").

(** A run past discovery, with shards to scan. *)
Lemma Run_scan_eq (cmd : Command) (w : World) (args : Flags) paths :
  flagDbPath args ≠ EmptyString →
  Filepath.Walk discover (flagDbPath args) (lstat w (flagDbPath args)) (shardPaths cmd)
    = (paths, None) →
  size paths ≠ 0%nat →
  Run cmd w args
  = let r := scanShards w (fnOf args) (range (ranges w) paths) (scanStart cmd) in
    let cmd' := {| Stderr := stderr r.1; Stdout := Stdout cmd; dbPath := flagDbPath args;
                   shardPaths := paths; exact := flagExact args;
                   concurrency := flagC args |} in
    match r.2 with
    | Some e => {| final := cmd'; dbMap := toto r.1; buckets := cells r.1; err := Some e |}
    | None =>
        {| final := {| Stderr := stderr r.1;
                       Stdout := (Write (Stdout cmd)
                                    (report (ranges w) (titleOf args) (toto r.1) (cells r.1))).1;
                       dbPath := flagDbPath args; shardPaths := paths;
                       exact := flagExact args; concurrency := flagC args |};
           dbMap := toto r.1; buckets := cells r.1;
           err := (Write (Stdout cmd)
                     (report (ranges w) (titleOf args) (toto r.1) (cells r.1))).2 |}
    end.
Proof.
  intros Hpath Hwalk Hsize. unfold Run, scanStart. simpl.
  apply String.eqb_neq in Hpath. rewrite Hpath, Hwalk. simpl.
  apply Nat.eqb_neq in Hsize. rewrite Hsize.
  destruct (flagExact args);
    destruct (scanShards _ _ _ _) as [s [e|]]; simpl; try done;
    by destruct (Write _ _).
Qed.

Lemma countAll_stderr fn ks (s : scan) : stderr (countAll fn ks s) = stderr s.
Proof.
  revert s. induction ks as [|[[db rp] k] ks IH]; intros s; [done|].
  simpl. rewrite IH. unfold countKey.
  destruct (Bytes.Cut k keyFieldSeparator) as [[seriesKey field] found].
  by destruct (initFieldsAndSeries _ _ _ _ _ _) as [[p toto'] h'].
Qed.

Lemma warns_stderr ms fn ks (s : scan) :
  stderr (warns ms (countAll fn ks s)) = stderr (warns ms s).
Proof. by rewrite <-countAll_warns, countAll_stderr. Qed.

Lemma range_size {K V} `{Countable K} (ro : RangeOrder) (m : gmap K V) :
  length (range ro m) = size m.
Proof. unfold range. rewrite order_perm. apply length_map_to_list. Qed.

(** X1. A run without a data path returns the error that the path must
    be provided before it looks at the file system: nothing is written to
    either stream, the shard map is left as it was and no index is built. *)
Theorem Run_requires_db_path (cmd : Command) (w : World) (args : Flags) :
  flagDbPath args = EmptyString →
  let o := Run cmd w args in
  err o = Some errDbPathRequired ∧
  Stdout (final o) = Stdout cmd ∧ Stderr (final o) = Stderr cmd ∧
  shardPaths (final o) = shardPaths cmd ∧ dbMap o = ∅ ∧ buckets o = [].
Proof. intros Hpath. unfold Run. simpl. by rewrite Hpath. Qed.

(** X5. When the files of a shard cannot be listed, the run stops at that
    shard: it returns the listing error, writes the line naming the shard
    path and the error to standard error after the warnings of the shards
    scanned before, and prints no report; the index holds the keys of the
    shards that came before in the order of the run. *)
Theorem Run_shard_listing_error (cmd : Command) (w : World) (args : Flags)
    paths ok k p rest e :
  flagDbPath args ≠ EmptyString →
  Filepath.Walk discover (flagDbPath args) (lstat w (flagDbPath args)) (shardPaths cmd)
    = (paths, None) →
  range (ranges w) paths = ok ++ (k, p) :: rest →
  Forall (listable w) ok →
  shardFiles w p = inl e →
  let o := Run cmd w args in
  err o = Some e ∧
  Stdout (final o) = Stdout cmd ∧
  Stderr (final o)
    = (Fprintf (stderr (warns (allWarnings w ok) (scanStart cmd)))
         (p +:+ ": " +:+ Error e +:+ nl)).1 ∧
  dbMap o = toto (countAll (fnOf args) (allKeys w ok) (scanStart cmd)) ∧
  buckets o = cells (countAll (fnOf args) (allKeys w ok) (scanStart cmd)).
Proof.
  intros Hpath Hwalk Hrange Hok Hp.
  assert (size paths ≠ 0%nat) as Hsize.
  { rewrite <-(range_size (ranges w)), Hrange, length_app. simpl. lia. }
  cbv zeta. rewrite (Run_scan_eq _ _ _ _ Hpath Hwalk Hsize). cbv zeta.
  rewrite Hrange, (scanShards_unlistable _ _ _ _ _ _ _ _ Hok Hp). simpl.
  destruct (warns_index (allWarnings w ok)
              (countAll (fnOf args) (allKeys w ok) (scanStart cmd))) as [-> ->].
  by rewrite warns_stderr.
Qed.

(** X6. When discovery succeeds, finds a shard, and the files of every
    shard can be listed, the run cannot fail before the report: its index is
    the one obtained by counting the keys of all readable files of all
    shards in the order of the run, standard error receives the per-file
    warnings and nothing else, the report of that index is written to
    standard output with the total row labelled by the mode, and the error
    returned is the one of that last write, if any. *)
Theorem Run_counts_every_readable_key (cmd : Command) (w : World) (args : Flags) paths :
  flagDbPath args ≠ EmptyString →
  Filepath.Walk discover (flagDbPath args) (lstat w (flagDbPath args)) (shardPaths cmd)
    = (paths, None) →
  size paths ≠ 0%nat →
  Forall (listable w) (range (ranges w) paths) →
  let o := Run cmd w args in
  let s := countAll (fnOf args) (allKeys w (range (ranges w) paths)) (scanStart cmd) in
  dbMap o = toto s ∧ buckets o = cells s ∧
  Stderr (final o) = stderr (warns (allWarnings w (range (ranges w) paths)) (scanStart cmd)) ∧
  err o = failure (Stdout cmd) ∧
  Stdout (final o)
    = (Write (Stdout cmd) (report (ranges w) (titleOf args) (toto s) (cells s))).1.
Proof.
  intros Hpath Hwalk Hsize Hok.
  cbv zeta. rewrite (Run_scan_eq _ _ _ _ Hpath Hwalk Hsize). cbv zeta.
  rewrite (scanShards_listable _ _ _ _ Hok). simpl.
  destruct (warns_index (allWarnings w (range (ranges w) paths))
              (countAll (fnOf args) (allKeys w (range (ranges w) paths)) (scanStart cmd)))
    as [-> ->].
  rewrite warns_stderr. split_and!; try done.
  unfold Write. by destruct (failure (Stdout cmd)).
Qed.

(** X7. Whatever a run does, the index it leaves is well formed: every
    pointer stored under a (database, retention policy, measurement) triple
    refers to an allocated cell, and no two triples share a cell. *)
Theorem Run_index_well_formed (cmd : Command) (w : World) (args : Flags) :
  indexWf (dbMap (Run cmd w args)) (buckets (Run cmd w args)).
Proof.
  destruct (Run_index cmd w args) as [[-> ->]|(ps & -> & ->)]; [apply indexWf_empty|].
  apply (scanShards_invariant (λ s, indexWf (toto s) (cells s))).
  - intros db rp k s Hs. by destruct (countKey_spec (fnOf args) db rp k s Hs) as (_ & _ & _ & _ & _ & ? & _).
  - done.
  - apply indexWf_empty.
Qed.

(** X8. The counting strategy is global for a run: every counter of every
    bucket the run leaves, series and fields alike, is of the variant the
    [-exact] flag selects; no run mixes exact and approximate counters. *)
Theorem Run_counters_follow_mode (cmd : Command) (w : World) (args : Flags) :
  Forall (λ c, isExact (fields c) = flagExact args ∧ isExact (series c) = flagExact args)
         (buckets (Run cmd w args)).
Proof.
  destruct (Run_index cmd w args) as [[_ ->]|(ps & _ & ->)]; [constructor|].
  apply (scanShards_invariant
           (λ s, Forall (λ c, isExact (fields c) = flagExact args ∧
                              isExact (series c) = flagExact args) (cells s)));
    [|done|constructor].
  intros db rp k s Hs. unfold countKey.
  destruct (Bytes.Cut k keyFieldSeparator) as [[seriesKey field] found].
  destruct (initFieldsAndSeries _ _ _ _ _ _) as [[p toto'] h'] eqn:Hinit. simpl.
  assert (Forall (λ c, isExact (fields c) = flagExact args ∧
                       isExact (series c) = flagExact args) h') as Hh'.
  { destruct (bucket (toto s) db rp (ParseKey seriesKey)) as [q|] eqn:Hb.
    - rewrite (initFieldsAndSeries_found _ _ _ _ _ _ _ Hb) in Hinit. by simplify_eq.
    - destruct (initFieldsAndSeries_fresh (toto s) (cells s) db rp (ParseKey seriesKey)
                  (fnOf args) Hb) as (t & Heq & _).
      rewrite Heq in Hinit. simplify_eq. apply Forall_app. split; [done|].
      constructor; [|constructor]. simpl. by destruct (flagExact args). }
  unfold addFields, addSeries.
  apply Forall_alter; [apply Forall_alter; [done|]|].
  - intros [f sr] _ [Hf Hs']. simpl in *. split; [done|]. by destruct sr.
  - intros [f sr] _ [Hf Hs']. simpl in *. split; [|done]. by destruct f.
Qed.

End RunExtras.

Section RoutedExtras.
Context `{Collaborators}.

Local Abbreviation fnOf args := (if flagExact args then NewExactCounter else NewHLLCounter).

(** X9. After a run whose shards can all be listed, a triple has a bucket
    exactly when some key of a readable file was routed to it (the key's
    file lies in that database and retention policy and the key's series
    part parses to that measurement), and the two counters of the bucket
    are fresh counters to which the routed raw keys, respectively their
    field names, were added in the order of the scan, and nothing else. *)
Theorem bucket_holds_routed_keys (cmd : Command) (w : World) (args : Flags) paths :
  flagDbPath args ≠ EmptyString →
  Filepath.Walk discover (flagDbPath args) (lstat w (flagDbPath args)) (shardPaths cmd)
    = (paths, None) →
  size paths ≠ 0%nat →
  Forall (listable w) (range (ranges w) paths) →
  let o := Run cmd w args in
  let ks := allKeys w (range (ranges w) paths) in
  ∀ d r m,
    match bucket (dbMap o) d r m with
    | Some p =>
        routed ks d r m ≠ [] ∧
        buckets o !! p
        = Some {| fields := foldl (λ c k, Add (fieldOfKey k) c) (fnOf args ())
                                  (routed ks d r m);
                  series := foldl (λ c k, Add k c) (fnOf args ()) (routed ks d r m) |}
    | None => routed ks d r m = []
    end.
Proof.
  intros Hpath Hwalk Hsize Hok. cbv zeta.
  rewrite (Run_scan_eq _ _ _ _ Hpath Hwalk Hsize). cbv zeta.
  rewrite (scanShards_listable _ _ _ _ Hok). simpl.
  destruct (warns_index (allWarnings w (range (ranges w) paths))
              (countAll (fnOf args) (allKeys w (range (ranges w) paths)) (scanStart cmd)))
    as [-> ->].
  by destruct (countAll_routes (fnOf args) (allKeys w (range (ranges w) paths))
                 (scanStart cmd) eq_refl eq_refl) as [_ Hr].
Qed.

Lemma foldl_Add_exact (l : list string) (X : gset string) :
  foldl (λ c k, Add k c) (exactCounter X) l = exactCounter (list_to_set l ∪ X).
Proof.
  revert X. induction l as [|k l IH]; intros X; simpl.
  - f_equal. set_solver.
  - rewrite IH. f_equal. set_solver.
Qed.

Lemma foldl_Add_field_exact (l : list string) (X : gset string) :
  foldl (λ c k, Add (fieldOfKey k) c) (exactCounter X) l
  = exactCounter (list_to_set (fieldOfKey <$> l) ∪ X).
Proof.
  revert X. induction l as [|k l IH]; intros X; simpl.
  - f_equal. set_solver.
  - rewrite IH. f_equal. set_solver.
Qed.

Lemma routed_perm ks ks' d r m : ks ≡ₚ ks' → routed ks d r m ≡ₚ routed ks' d r m.
Proof. intros Hp. unfold routed. by rewrite Hp. Qed.

Lemma allKeys_perm (w : World) ps ps' : ps ≡ₚ ps' → allKeys w ps ≡ₚ allKeys w ps'.
Proof. intros Hp. unfold allKeys. by rewrite Hp. Qed.

(** X10. In exact mode the counts do not depend on the order in which the
    shards are scanned, nor on how often a key is stored: the series count
    of a bucket is the number of distinct raw keys routed to its triple, the
    field count the number of distinct field names among them (as
    [uint64]). *)
Theorem exact_counts_distinct_keys (cmd : Command) (w : World) (args : Flags) paths :
  flagDbPath args ≠ EmptyString →
  Filepath.Walk discover (flagDbPath args) (lstat w (flagDbPath args)) (shardPaths cmd)
    = (paths, None) →
  size paths ≠ 0%nat →
  Forall (listable w) (range (ranges w) paths) →
  flagExact args = true →
  let o := Run cmd w args in
  let ks := allKeys w (map_to_list paths) in
  ∀ d r m p,
    bucket (dbMap o) d r m = Some p →
    seriesOf (buckets o) p
      = uint64 (Z.of_nat (size (list_to_set (routed ks d r m) : gset string))) ∧
    fieldsOf (buckets o) p
      = uint64 (Z.of_nat (size (list_to_set (fieldOfKey <$> routed ks d r m) : gset string))).
Proof.
  intros Hpath Hwalk Hsize Hok Hexact. cbv zeta. intros d r m p Hp.
  rewrite (Run_scan_eq _ _ _ _ Hpath Hwalk Hsize) in Hp |- *. cbv zeta in Hp |- *.
  rewrite (scanShards_listable _ _ _ _ Hok) in Hp |- *. simpl in Hp |- *.
  destruct (warns_index (allWarnings w (range (ranges w) paths))
              (countAll (fnOf args) (allKeys w (range (ranges w) paths)) (scanStart cmd)))
    as [Ht Hc].
  rewrite Ht in Hp. rewrite Hc.
  destruct (countAll_routes (fnOf args) (allKeys w (range (ranges w) paths))
              (scanStart cmd) eq_refl eq_refl) as [_ Hr].
  specialize (Hr d r m). cbv zeta in Hr. rewrite Hp in Hr. destruct Hr as [_ Hcell].
  assert (routed (allKeys w (range (ranges w) paths)) d r m
          ≡ₚ routed (allKeys w (map_to_list paths)) d r m) as Hperm.
  { apply routed_perm, allKeys_perm. unfold range. apply order_perm. }
  unfold seriesOf, fieldsOf, deref. rewrite Hcell, Hexact.
  cbn [default fields series]. unfold NewExactCounter.
  rewrite foldl_Add_exact, foldl_Add_field_exact. cbn [Count].
  rewrite !(right_id_L ∅ (∪)).
  rewrite (list_to_set_perm_L _ _ Hperm).
  rewrite (list_to_set_perm_L _ _ (fmap_Permutation fieldOfKey _ _ Hperm)).
  done.
Qed.

End RoutedExtras.

Section DiscoveryExtras.
Import Filepath.
Context `{Collaborators}.

(** The value [discover] returns does not depend on the shard map. *)
Lemma discover_verdict (sp : gmap Z string) path a :
  (discover sp path a).2 = (discover ∅ path a).2.
Proof.
  unfold discover. destruct a as [[name [|]] [e|]|e]; simpl; try done.
  destruct (String.eqb name SeriesFileDirectory || String.eqb name "index"); [done|].
  by destruct (Strconv.Atoi name).
Qed.

(** [discover] fails exactly on the entries that cannot be read. *)
Lemma discover_fails_iff path n :
  (∃ e, (discover ∅ path (argOf n)).2 = Some (Failure e)) ↔ unreadable n.
Proof.
  destruct n as [name|name [e|] entries|name e]; simpl.
  - split; [by intros [? ?]|done].
  - split; [done|eauto].
  - split; [|done]. intros [e He].
    destruct (String.eqb name SeriesFileDirectory || String.eqb name "index"); [done|].
    by destruct (Strconv.Atoi name).
  - split; [done|eauto].
Qed.

(** A call on which [discover] fails ends the walk with that failure. *)
Lemma walk_discover_stops n :
  ∀ path (sp : gmap Z string) c e,
    c ∈ calls discover path n sp →
    (discover ∅ c.1 c.2).2 = Some (Failure e) →
    (walk discover path n sp).2 = Some (Failure e).
Proof.
  induction n as [name|name e0|name readErr entries IH] using node_ind';
    intros path sp c e.
  - rewrite calls_leaf by done. intros ->%list_elem_of_singleton Hf.
    cbn [fst snd argOf] in Hf. cbn [walk]. by rewrite discover_verdict.
  - rewrite calls_leaf by done. intros ->%list_elem_of_singleton Hf.
    cbn [fst snd argOf] in Hf. cbn [walk]. by rewrite discover_verdict.
  - rewrite calls_Dir, walk_Dir. cbn [argOf]. destruct readErr as [e0|].
    { intros ->%list_elem_of_singleton Hf. exact Hf. }
    destruct (discover sp path (Stat {| Name := name; IsDir := true |} None))
      as [s1 err1] eqn:Hd.
    assert (err1 = (discover ∅ path (Stat {| Name := name; IsDir := true |} None)).2)
      as Herr1 by (by rewrite <-(discover_verdict sp), Hd).
    rewrite ?Hd. cbn [fst snd]. intros [->|Hc]%elem_of_cons Hfail.
    { cbn [fst snd] in Hfail. rewrite Hfail in Herr1. by subst err1. }
    destruct err1 as [r|]; [by apply elem_of_nil in Hc|].
    clear Hd Herr1. revert s1 Hc.
    induction IH as [|e1 es He Hes IHes]; intros s Hc.
    { unfold callsLoop in Hc. simpl in Hc. by apply elem_of_nil in Hc. }
    rewrite callsLoop_cons in Hc. simpl.
    apply elem_of_app in Hc as [Hc|Hc].
    + pose proof (He _ _ _ _ Hc Hfail) as Hw.
      destruct (walk discover (Join path (nodeName e1)) e1 s) as [s' r]. simpl in Hw.
      by subst r.
    + destruct (walk discover (Join path (nodeName e1)) e1 s) as [s' [[|e']|]];
        cbn [fst snd] in Hc.
      * destruct e1; [by apply elem_of_nil in Hc | by apply IHes | by apply IHes].
      * by apply elem_of_nil in Hc.
      * by apply IHes.
Qed.

(** A walk that fails made a call on which [discover] failed. *)
Lemma walk_discover_failed n :
  ∀ path (sp : gmap Z string) e,
    (walk discover path n sp).2 = Some (Failure e) →
    ∃ c, c ∈ calls discover path n sp ∧ (discover ∅ c.1 c.2).2 = Some (Failure e).
Proof.
  induction n as [name|name e0|name readErr entries IH] using node_ind';
    intros path sp e.
  - done.
  - simpl. intros [= ->]. exists (path, NoStat e). split; [|done].
    rewrite calls_leaf by done. by left.
  - rewrite calls_Dir, walk_Dir. cbn [argOf]. destruct readErr as [e0|].
    { intros Hw. eexists. split; [by left|]. exact Hw. }
    destruct (discover sp path (Stat {| Name := name; IsDir := true |} None))
      as [s1 err1] eqn:Hd.
    assert (err1 = (discover ∅ path (Stat {| Name := name; IsDir := true |} None)).2)
      as Herr1 by (by rewrite <-(discover_verdict sp), Hd).
    rewrite ?Hd. cbn [fst snd].
    destruct err1 as [r|].
    { intros Hw. eexists. split; [by left|]. cbn [fst snd] in *. congruence. }
    clear Hd Herr1. intros Hw.
    cut (∃ c, c ∈ callsLoop discover path entries s1 ∧
              (discover ∅ c.1 c.2).2 = Some (Failure e)).
    { intros (c & Hc & Hf). exists c. split; [by right|done]. }
    revert s1 Hw. induction IH as [|e1 es He Hes IHes]; intros s Hw; [done|].
    rewrite callsLoop_cons. simpl in Hw.
    destruct (walk discover (Join path (nodeName e1)) e1 s) as [s' r] eqn:Hwe.
    cbn [fst snd].
    destruct r as [[|e']|].
    + destruct e1 as [nm|nm ro es1|nm e1]; [done| |];
        (destruct (IHes _ Hw) as (c & Hc & Hf); exists c; split; [|done];
         apply elem_of_app; by right).
    + simpl in Hw. injection Hw as ->.
      destruct (He (Join path (nodeName e1)) s e) as (c & Hc & Hf); [by rewrite Hwe|].
      exists c. split; [|done]. apply elem_of_app. by left.
    + destruct (IHes _ Hw) as (c & Hc & Hf). exists c. split; [|done].
      apply elem_of_app. by right.
Qed.

(** Discovery completes exactly when every entry the walk reaches can be
    read. *)
Lemma Walk_ok_iff (root : string) (n : node) (sp : gmap Z string) :
  (Walk discover root n sp).2 = None ↔
  ∀ q n', reaches root n q n' → ¬ unreadable n'.
Proof.
  split.
  - intros Hok q n' Hreach Hun.
    apply (discover_fails_iff q) in Hun as [e He].
    pose proof (discover_calls_complete _ _ _ _ Hreach sp (Walk_ok _ _ _ _ Hok)) as Hc.
    pose proof (walk_discover_stops _ _ _ _ _ Hc He) as Hw.
    by apply (Walk_ok _ _ _ _ Hok e).
  - intros Hall. unfold Walk.
    destruct (walk discover root n sp) as [s' r] eqn:Hw. simpl.
    destruct r as [[|e]|]; try done. exfalso.
    destruct (walk_discover_failed n root sp e) as ([q a] & Hc & Hf); [by rewrite Hw|].
    apply discover_calls_sound in Hc as (n' & Hreach & Harg). simpl in *. subst a.
    apply (Hall _ _ Hreach). apply (discover_fails_iff q). eauto.
Qed.

(** X3. Shard discovery completes without error exactly when every entry
    the walk reaches can be read: no [Lstat] failure and no unreadable
    directory among the root, and the entries of the readable directories
    that bear no reserved name. What lies below a reserved directory cannot
    make discovery fail. *)
Theorem Walk_completes_iff_readable (root : string) (n : node) (sp : gmap Z string) :
  (Walk discover root n sp).2 = None ↔
  ∀ q n', reaches root n q n' → ¬ unreadable n'.
Proof. apply Walk_ok_iff. Qed.

(** X2. An entry that cannot be read, anywhere the walk reaches, is fatal
    to the run: it returns an error, writes nothing to standard output or
    standard error, and builds no index. *)
Theorem Run_discovery_error_is_fatal (cmd : Command) (w : World) (args : Flags) q n' :
  flagDbPath args ≠ EmptyString →
  reaches (flagDbPath args) (lstat w (flagDbPath args)) q n' →
  unreadable n' →
  let o := Run cmd w args in
  is_Some (err o) ∧
  Stdout (final o) = Stdout cmd ∧ Stderr (final o) = Stderr cmd ∧
  dbMap o = ∅ ∧ buckets o = [].
Proof.
  intros Hpath Hreach Hun. unfold Run. simpl.
  apply String.eqb_neq in Hpath. rewrite Hpath.
  destruct (Walk discover _ _ _) as [paths [e|]] eqn:Hwalk; [simpl; eauto|].
  exfalso. eapply (proj1 (Walk_ok_iff _ _ (shardPaths cmd))); [|done..].
  by rewrite Hwalk.
Qed.

Lemma assign_keeps (m : gmap Z string) l k :
  is_Some (m !! k) → is_Some (assign m l !! k).
Proof.
  revert m. induction l as [|[k' p] l IH]; intros m Hk; [done|].
  simpl. apply IH. destruct (decide (k' = k)) as [->|Hne].
  - rewrite lookup_insert_eq. eauto.
  - by rewrite lookup_insert_ne.
Qed.

(** X4. A run never removes a shard from the command's shard map: a shard
    ID registered before the run, by an earlier run on the same command, is
    still registered after it, whatever the run finds and however it ends
    (the walk only adds or overwrites entries, and the map is not reset). *)
Theorem Run_keeps_shard_paths (cmd : Command) (w : World) (args : Flags) k p :
  shardPaths cmd !! k = Some p →
  is_Some (shardPaths (final (Run cmd w args)) !! k).
Proof.
  intros Hk.
  assert (is_Some ((Walk discover (flagDbPath args) (lstat w (flagDbPath args))
                      (shardPaths cmd)).1 !! k)) as Hwalk.
  { rewrite Walk_fst, walk_discover_assign. apply assign_keeps. eauto. }
  unfold Run. simpl.
  destruct (String.eqb (flagDbPath args) EmptyString); [simpl; eauto|].
  destruct (Walk discover _ _ _) as [paths [e|]]; [done|]. simpl in *.
  destruct (size paths =? 0)%nat.
  { by destruct (Fprintf _ _). }
  destruct (scanShards _ _ _ _) as [s [e|]]; [done|]. simpl.
  by destruct (Write _ _).
Qed.

End DiscoveryExtras.

Section ExtraWitnesses.
Import Scenario Filepath.
#[local] Existing Instance collaborators.

(** [Run_requires_db_path] on a fresh command and arguments without a path. *)
Lemma Run_requires_db_path_witness :
  flagDbPath noPathFlags = EmptyString ∧
  err (Run fresh twoFields noPathFlags) = Some errDbPathRequired ∧
  Stdout (final (Run fresh twoFields noPathFlags)) = Stdout fresh ∧
  Stderr (final (Run fresh twoFields noPathFlags)) = Stderr fresh ∧
  shardPaths (final (Run fresh twoFields noPathFlags)) = shardPaths fresh ∧
  dbMap (Run fresh twoFields noPathFlags) = ∅ ∧
  buckets (Run fresh twoFields noPathFlags) = [].
Proof.
  split; [reflexivity|].
  apply (Run_requires_db_path fresh twoFields noPathFlags). reflexivity.
Defined.

(** [Run_discovery_error_is_fatal] on a data directory in which one
    retention policy cannot be read. *)
Lemma Run_discovery_error_is_fatal_witness :
  is_Some (err (Run fresh locked defaultFlags)) ∧
  Stdout (final (Run fresh locked defaultFlags)) = Stdout fresh ∧
  Stderr (final (Run fresh locked defaultFlags)) = Stderr fresh ∧
  dbMap (Run fresh locked defaultFlags) = ∅ ∧
  buckets (Run fresh locked defaultFlags) = [].
Proof.
  apply (Run_discovery_error_is_fatal fresh locked defaultFlags "data/db0/secret"
           (Dir "secret" (Some (errOS "permission denied")) [])).
  - discriminate.
  - apply (reaches_entry "data" "data" _ (Dir "db0" None
             [Dir "autogen" None [Dir "1" None []];
              Dir "secret" (Some (errOS "permission denied")) []]));
      [intros [?|?]; discriminate | by left |].
    apply (reaches_entry "data/db0" "db0" _
             (Dir "secret" (Some (errOS "permission denied")) []));
      [intros [?|?]; discriminate | by right; left | apply reaches_self].
  - exact I.
Defined.

(** [Run_keeps_shard_paths] on a command that holds shard 9 of an earlier run. *)
Lemma Run_keeps_shard_paths_witness :
  shardPaths stale !! 9 = Some "old/db0/autogen/9" ∧
  is_Some (shardPaths (final (Run stale twoFields exactFlags)) !! 9).
Proof.
  split; [reflexivity|].
  apply (Run_keeps_shard_paths stale twoFields exactFlags 9 "old/db0/autogen/9").
  reflexivity.
Defined.

(** [Run_shard_listing_error] on two shards, the second in the order of the
    run being the one whose files cannot be listed. *)
Lemma Run_shard_listing_error_witness :
  let o := Run fresh lostShard exactFlags in
  err o = Some (errOS "permission denied") ∧
  Stdout (final o) = Stdout fresh ∧
  Stderr (final o)
    = (Fprintf (stderr (warns (allWarnings lostShard [(2, shard2)]) (scanStart fresh)))
         (shard1 +:+ ": " +:+ Error (errOS "permission denied") +:+ nl)).1 ∧
  dbMap o = toto (countAll NewExactCounter (allKeys lostShard [(2, shard2)])
                    (scanStart fresh)) ∧
  buckets o = cells (countAll NewExactCounter (allKeys lostShard [(2, shard2)])
                       (scanStart fresh)).
Proof.
  apply (Run_shard_listing_error fresh lostShard exactFlags
           (<[2 := shard2]> {[ 1 := shard1 ]}) [(2, shard2)] 1 shard1 []
           (errOS "permission denied")).
  - discriminate.
  - vm_compute. reflexivity.
  - vm_compute. reflexivity.
  - constructor; [|constructor]. eexists. reflexivity.
  - reflexivity.
Defined.

(** [Run_counts_every_readable_key] on the shard with an unreadable and a
    readable file, with a standard output that fails. *)
Lemma Run_counts_every_readable_key_witness :
  let o := Run muted oneBadFile exactFlags in
  let ps := range (ranges oneBadFile) ({[ 1 := shard1 ]} : gmap Z string) in
  let s := countAll NewExactCounter (allKeys oneBadFile ps) (scanStart muted) in
  dbMap o = toto s ∧ buckets o = cells s ∧
  Stderr (final o) = stderr (warns (allWarnings oneBadFile ps) (scanStart muted)) ∧
  err o = failure (Stdout muted) ∧
  Stdout (final o)
    = (Write (Stdout muted) (report (ranges oneBadFile) EmptyString (toto s) (cells s))).1.
Proof.
  apply (Run_counts_every_readable_key muted oneBadFile exactFlags {[ 1 := shard1 ]}).
  - discriminate.
  - vm_compute. reflexivity.
  - vm_compute. discriminate.
  - constructor; [|constructor]. eexists. reflexivity.
Defined.

(** [bucket_holds_routed_keys] on the bucket of [cpu] after the run over one
    series with two fields. *)
Lemma bucket_holds_routed_keys_witness :
  let o := Run fresh twoFields exactFlags in
  let ks := allKeys twoFields
              (range (ranges twoFields) ({[ 1 := shard1 ]} : gmap Z string)) in
  match bucket (dbMap o) "db0" "autogen" "cpu" with
  | Some p =>
      routed ks "db0" "autogen" "cpu" ≠ [] ∧
      buckets o !! p
      = Some {| fields := foldl (λ c k, Add (fieldOfKey k) c) (NewExactCounter ())
                                (routed ks "db0" "autogen" "cpu");
                series := foldl (λ c k, Add k c) (NewExactCounter ())
                                (routed ks "db0" "autogen" "cpu") |}
  | None => routed ks "db0" "autogen" "cpu" = []
  end.
Proof.
  apply (bucket_holds_routed_keys fresh twoFields exactFlags {[ 1 := shard1 ]}
           ltac:(discriminate) ltac:(vm_compute; reflexivity) ltac:(vm_compute; discriminate)
           ltac:(constructor; [|constructor]; eexists; reflexivity)
           "db0" "autogen" "cpu").
Defined.

(** [exact_counts_distinct_keys] on the bucket of [cpu] after the run over
    the shard with one readable file. *)
Lemma exact_counts_distinct_keys_witness :
  let o := Run fresh oneBadFile exactFlags in
  let ks := allKeys oneBadFile (map_to_list ({[ 1 := shard1 ]} : gmap Z string)) in
  bucket (dbMap o) "db0" "autogen" "cpu" = Some 0%nat ∧
  seriesOf (buckets o) 0
    = uint64 (Z.of_nat (size (list_to_set (routed ks "db0" "autogen" "cpu") : gset string))) ∧
  fieldsOf (buckets o) 0
    = uint64 (Z.of_nat (size (list_to_set (fieldOfKey <$> routed ks "db0" "autogen" "cpu")
                                : gset string))).
Proof.
  assert (bucket (dbMap (Run fresh oneBadFile exactFlags)) "db0" "autogen" "cpu" = Some 0%nat)
    as Hb by (vm_compute; reflexivity).
  split; [exact Hb|].
  apply (exact_counts_distinct_keys fresh oneBadFile exactFlags {[ 1 := shard1 ]}
           ltac:(discriminate) ltac:(vm_compute; reflexivity) ltac:(vm_compute; discriminate)
           ltac:(constructor; [|constructor]; eexists; reflexivity) eq_refl
           "db0" "autogen" "cpu" 0%nat Hb).
Defined.

End ExtraWitnesses.

(** * Failing files and colliding shard numbers *)

Section FilesRevisited.
Context `{Collaborators}.

Lemma cellBefore_lookup fn (s : scan) d r m p :
  indexWf (toto s) (cells s) →
  bucket (toto s) d r m = Some p →
  cells s !! p = Some {| fields := fields (cellBefore fn s d r m);
                         series := series (cellBefore fn s d r m) |}.
Proof.
  intros [Hlt _] Hb. unfold cellBefore, deref. rewrite Hb.
  destruct (lookup_lt_is_Some_2 _ _ (Hlt _ _ _ _ Hb)) as [[f sr] Hc].
  by rewrite Hc.
Qed.

(** After the keys [ks] are counted into a well-formed index: the buckets
    that existed are where they were, a new bucket exists exactly for the
    triples a key was routed to, and the counters of every bucket are the
    ones it had before (fresh ones for a new bucket) with the routed keys
    added, in order, and nothing else. *)
Lemma countAll_routes_from fn ks (s0 : scan) :
  indexWf (toto s0) (cells s0) →
  let s := countAll fn ks s0 in
  indexWf (toto s) (cells s) ∧
  ∀ d r m,
    match bucket (toto s) d r m with
    | Some p =>
        (bucket (toto s0) d r m = None → routed ks d r m ≠ []) ∧
        (∀ q, bucket (toto s0) d r m = Some q → p = q) ∧
        cells s !! p
        = Some {| fields := foldl (λ c k, Add (fieldOfKey k) c)
                                  (fields (cellBefore fn s0 d r m)) (routed ks d r m);
                  series := foldl (λ c k, Add k c)
                                  (series (cellBefore fn s0 d r m)) (routed ks d r m) |}
    | None => routed ks d r m = [] ∧ bucket (toto s0) d r m = None
    end.
Proof.
  intros Hwf0. induction ks as [|[[d0 r0] k0] ks IH] using rev_ind.
  - simpl. split; [done|]. intros d r m.
    destruct (bucket (toto s0) d r m) as [p|] eqn:Hb; [|done].
    split_and!; [done | by intros q [= ->] |].
    pose proof (cellBefore_lookup fn s0 d r m p Hwf0 Hb) as Hc.
    unfold cellBefore in *. by rewrite Hb in *.
  - cbv zeta in *. destruct IH as [Hwf IH]. rewrite countAll_snoc.
    set (s := countAll fn ks s0) in *.
    destruct (countKey_spec fn d0 r0 k0 s Hwf) as (p & Hp & Hcell & Hcells & Hother & Hwf' & _).
    split; [done|]. intros d r m. rewrite routed_snoc.
    destruct (decide ((d0, r0, measurementOfKey k0) = (d, r, m))) as [Heq|Hne].
    + injection Heq as <- <- <-. unfold measurementOfKey in *. rewrite Hp.
      specialize (IH d0 r0 (ParseKey (Bytes.Cut k0 keyFieldSeparator).1.1)).
      rewrite Hcell, !foldl_app. simpl.
      destruct (bucket (toto s) d0 r0 _) as [q|] eqn:Hq.
      * destruct IH as (_ & Hsame & IH).
        pose proof (countKey_keeps fn d0 r0 k0 s _ _ _ _ Hq) as Hq'.
        fold s in Hq'. rewrite Hp in Hq'. injection Hq' as ->.
        split_and!; [by destruct (routed ks d0 r0 _) | done |].
        unfold cellBefore at 1 2. rewrite Hq. unfold deref. by rewrite IH.
      * destruct IH as [Hr Hb0].
        split_and!; [by destruct (routed ks d0 r0 _) | by rewrite Hb0 |].
        rewrite Hr. unfold cellBefore. by rewrite Hq, Hb0.
    + rewrite app_nil_r.
      assert ((d, r, m) ≠ (d0, r0, ParseKey (Bytes.Cut k0 keyFieldSeparator).1.1)) as Hne'
        by (unfold measurementOfKey in Hne; congruence).
      rewrite (Hother _ _ _ Hne'). specialize (IH d r m).
      destruct (bucket (toto s) d r m) as [q|] eqn:Hq; [|done].
      destruct IH as (Hr & Hsame & IH). split_and!; [done..|]. rewrite <-IH.
      apply Hcells.
      * intros ->. destruct Hwf' as [_ Hinj]. apply Hne'.
        eapply Hinj; [|exact Hp]. by rewrite (Hother _ _ _ Hne').
      * destruct Hwf as [Hlt _]. eauto.
Qed.

(** C7. Every per-file failure is a warning on standard error and nothing
    else. A file that cannot be opened, or for which no reader can be
    constructed, contributes no key, and the processor leaves index and
    counters as they were and returns no error; a reader whose [Close]
    fails contributes all its keys. Over a shard the processor returns no
    error, writes the warnings of the files in order, and leaves every
    bucket that existed where it was, with the counters it had plus the keys
    of the readable files routed to it; a bucket is new exactly for the
    triples such a key was routed to: a readable file next to an unreadable
    one is fully reflected in the counters. *)
Theorem file_failures_are_skipped (w : World) fn :
  (∀ db rp id path (s : scan) e,
      openFile w path = inl e ∨ openFile w path = inr (inl e) →
      fileKeys w path = [] ∧
      scanFile w fn db rp id path s
      = (warn s ("error: " +:+ path +:+ ": " +:+ Error e +:+ ". Skipping." +:+ nl), None)) ∧
  (∀ path ks e,
      openFile w path = inr (inr {| keys := ks; closeErr := Some e |}) →
      fileKeys w path = ks ∧
      fileWarnings w path
      = ["error closing: " +:+ path +:+ ": " +:+ Error e +:+ "." +:+ nl]) ∧
  (∀ path ks,
      openFile w path = inr (inr {| keys := ks; closeErr := None |}) →
      fileKeys w path = ks ∧ fileWarnings w path = []) ∧
  (∀ (s : scan) msg,
      toto (warn s msg) = toto s ∧ cells (warn s msg) = cells s ∧
      stderr (warn s msg) = (Fprintf (stderr s) msg).1) ∧
  (∀ root locs (s : scan),
      indexWf (toto s) (cells s) →
      shardFiles w root = inr locs →
      let r := WalkShardDirs w root (scanFile w fn) s in
      let ks := shardKeys w locs in
      r.2 = None ∧
      stderr r.1 = stderr (warns (shardWarnings w locs) s) ∧
      ∀ d rp m,
        match bucket (toto r.1) d rp m with
        | Some p =>
            (bucket (toto s) d rp m = None → routed ks d rp m ≠ []) ∧
            (∀ q, bucket (toto s) d rp m = Some q → p = q) ∧
            cells r.1 !! p
            = Some {| fields := foldl (λ c k, Add (fieldOfKey k) c)
                                      (fields (cellBefore fn s d rp m)) (routed ks d rp m);
                      series := foldl (λ c k, Add k c)
                                      (series (cellBefore fn s d rp m)) (routed ks d rp m) |}
        | None => routed ks d rp m = [] ∧ bucket (toto s) d rp m = None
        end).
Proof.
  split_and!.
  - intros db rp id path s e Hopen. rewrite scanFile_spec.
    unfold fileKeys, fileWarnings. by destruct Hopen as [-> | ->].
  - intros path ks e Hopen. unfold fileKeys, fileWarnings. by rewrite Hopen.
  - intros path ks Hopen. unfold fileKeys, fileWarnings. by rewrite Hopen.
  - done.
  - intros root locs s Hwf Hls. cbv zeta.
    rewrite (WalkShardDirs_scanFile _ _ _ _ _ Hls). cbn [fst snd].
    destruct (warns_index (shardWarnings w locs) (countAll fn (shardKeys w locs) s))
      as [-> ->].
    rewrite warns_stderr.
    by destruct (countAll_routes_from fn (shardKeys w locs) s Hwf) as [_ Hr].
Qed.

End FilesRevisited.

Section OverwriteRevisited.
Import Filepath.
Context `{Collaborators}.

(** An entry of the shard map after the assignments was assigned, or was
    there before. *)
Lemma assign_lookup_Some (m : gmap Z string) (l : list (Z * string)) k p :
  assign m l !! k = Some p → (k, p) ∈ l ∨ m !! k = Some p.
Proof.
  revert m. induction l as [|[k' p'] l IH]; intros m Hk; [by right|].
  simpl in Hk. apply IH in Hk as [Hin|Hk]; [left; by right|].
  destruct (decide (k' = k)) as [->|Hne].
  - rewrite lookup_insert_eq in Hk. injection Hk as ->. left. by left.
  - rewrite lookup_insert_ne in Hk by done. by right.
Qed.

(** A path that names one directory of the tree is held by the shard map
    under the shard number of that directory only. *)
Lemma registered_key root n (sp : gmap Z string) q name id k :
  (∀ n', reaches root n q n' → nodeName n' = name) →
  (∀ k', sp !! k' ≠ Some q) →
  Strconv.Atoi name = Some id →
  (Walk discover root n sp).1 !! k = Some q →
  k = uint64 id.
Proof.
  intros Hone Hsp Hid Hk. rewrite Walk_fst, walk_discover_assign in Hk.
  apply assign_lookup_Some in Hk as [Hin|Hk]; [|by destruct (Hsp k)].
  apply registrations_sound in Hin as (name' & es & id' & Hreach & _ & Hid' & ->).
  apply Hone in Hreach. simpl in Hreach. subst name'. congruence.
Qed.

(** C10. Two distinct directories the walk reaches whose names [Atoi]
    parses to the same integer are registered under the same key of the
    shard map. The map holds one path for that key, the one registered last
    under it: a later registration overwrites the earlier one. Where each of
    the two paths names one directory and the map held neither before the
    walk, at most one of the two directories is in the map the shard loop
    ranges over; and when the registration of the second is the last under
    the key, the first is not scanned at all. *)
Theorem same_id_overwrites (root : string) (n : node) (sp : gmap Z string)
    q1 q2 name1 name2 es1 es2 id :
  (Walk discover root n sp).2 = None →
  reaches root n q1 (Dir name1 None es1) →
  reaches root n q2 (Dir name2 None es2) →
  ¬ reserved name1 → ¬ reserved name2 →
  Strconv.Atoi name1 = Some id → Strconv.Atoi name2 = Some id →
  q1 ≠ q2 →
  (∀ n', reaches root n q1 n' → nodeName n' = name1) →
  (∀ n', reaches root n q2 n' → nodeName n' = name2) →
  (∀ k, sp !! k ≠ Some q1 ∧ sp !! k ≠ Some q2) →
  let paths := (Walk discover root n sp).1 in
  let regs := registrations root n sp in
  (uint64 id, q1) ∈ regs ∧ (uint64 id, q2) ∈ regs ∧
  paths = assign sp regs ∧
  (∃ p,
      paths !! uint64 id = Some p ∧
      ∀ l1 l2 p', regs = l1 ++ (uint64 id, p') :: l2 → uint64 id ∉ l2.*1 → p' = p) ∧
  (∀ ro k1 k2, ¬ ((k1, q1) ∈ range ro paths ∧ (k2, q2) ∈ range ro paths)) ∧
  (∀ l1 l2,
      regs = l1 ++ (uint64 id, q2) :: l2 → uint64 id ∉ l2.*1 →
      paths !! uint64 id = Some q2 ∧ ∀ ro k, (k, q1) ∉ range ro paths).
Proof.
  intros Hok Hr1 Hr2 Hn1 Hn2 Hid1 Hid2 Hne Hone1 Hone2 Hsp. cbv zeta.
  pose proof (registrations_complete _ _ _ _ _ _ _ Hok Hr1 Hn1 Hid1) as Hq1.
  pose proof (registrations_complete _ _ _ _ _ _ _ Hok Hr2 Hn2 Hid2) as Hq2.
  assert (∀ k, (Walk discover root n sp).1 !! k = Some q1 → k = uint64 id) as Hk1.
  { intros k. apply (registered_key _ _ _ _ name1); [done| |done]. intros k'. apply Hsp. }
  assert (∀ k, (Walk discover root n sp).1 !! k = Some q2 → k = uint64 id) as Hk2.
  { intros k. apply (registered_key _ _ _ _ name2); [done| |done]. intros k'. apply Hsp. }
  assert ((Walk discover root n sp).1 = assign sp (registrations root n sp)) as Hmap
    by (rewrite Walk_fst; apply walk_discover_assign).
  split_and!; try done.
  - destruct (assign_registered sp _ _ _ Hq1) as (p & la & lb & Hl & Hk).
    pose proof (assign_last sp la lb _ p Hk) as Hp. rewrite <-Hl, <-Hmap in Hp.
    exists p. split; [done|].
    intros l1 l2 p' Hregs Hl2.
    pose proof (assign_last sp l1 l2 _ p' Hl2) as Hp'. rewrite <-Hregs, <-Hmap in Hp'.
    congruence.
  - intros ro k1 k2 [Hin1%elem_of_range Hin2%elem_of_range].
    pose proof (Hk1 _ Hin1). pose proof (Hk2 _ Hin2). congruence.
  - intros l1 l2 Hregs Hl2.
    pose proof (assign_last sp l1 l2 _ q2 Hl2) as Hp. rewrite <-Hregs, <-Hmap in Hp.
    split; [done|]. intros ro k Hin%elem_of_range.
    pose proof (Hk1 _ Hin). congruence.
Qed.

End OverwriteRevisited.

Section NamedPaths.
Import Filepath.
Context `{Collaborators}.

Lemma argOf_name n info e : argOf n = Stat info e → nodeName n = Name info.
Proof. destruct n; simpl; by intros [= <- ?]. Qed.

(** A path names the entries on which the walk is called with it. *)
Lemma named_by_calls root n (sp : gmap Z string) q name :
  (Walk discover root n sp).2 = None →
  (∀ a, (q, a) ∈ calls discover root n sp → ∃ info e, a = Stat info e ∧ Name info = name) →
  ∀ n', reaches root n q n' → nodeName n' = name.
Proof.
  intros Hok Hcalls n' Hreach.
  pose proof (discover_calls_complete _ _ _ _ Hreach sp (Walk_ok _ _ _ _ Hok)) as Hin.
  apply Hcalls in Hin as (info & e & Ha & <-). by eapply argOf_name.
Qed.

End NamedPaths.

Section RevisedWitnesses.
Import Scenario Filepath.
#[local] Existing Instance collaborators.

Lemma oddTree_calls :
  calls discover "data" oddTree ∅
  = [("data", Stat {| Name := "data"; IsDir := true |} None);
     ("data/db0", Stat {| Name := "db0"; IsDir := true |} None);
     ("data/db0/autogen", Stat {| Name := "autogen"; IsDir := true |} None);
     ("data/db0/autogen/+7", Stat {| Name := "+7"; IsDir := true |} None);
     ("data/db0/autogen/-5", Stat {| Name := "-5"; IsDir := true |} None);
     ("data/db0/autogen/007", Stat {| Name := "007"; IsDir := true |} None);
     ("data/db0/autogen/7", Stat {| Name := "7"; IsDir := true |} None);
     ("data/db0/autogen/9223372036854775808",
      Stat {| Name := "9223372036854775808"; IsDir := true |} None);
     ("data/db0/autogen/_series", Stat {| Name := "_series"; IsDir := true |} None);
     ("data/db0/autogen/index", Stat {| Name := "index"; IsDir := true |} None)].
Proof. vm_compute. reflexivity. Qed.

Lemma oddTree_names q name :
  (q, Stat {| Name := name; IsDir := true |} None) ∈ calls discover "data" oddTree ∅ →
  (∀ a, (q, a) ∈ calls discover "data" oddTree ∅ → a = Stat {| Name := name; IsDir := true |} None) →
  ∀ n', reaches "data" oddTree q n' → nodeName n' = name.
Proof.
  intros _ Hone. apply (named_by_calls "data" oddTree ∅ q name).
  - vm_compute. reflexivity.
  - intros a Ha. apply Hone in Ha as ->. eauto.
Qed.

Ltac in_odd :=
  unfold oddShards; repeat first [apply list_elem_of_here | apply list_elem_of_further].

Ltac one_call :=
  let Hin := fresh in
  intros ? Hin; rewrite oddTree_calls in Hin;
  repeat (apply elem_of_cons in Hin as [Hin|Hin]; [try discriminate; by injection Hin|]);
  by apply elem_of_nil in Hin.

(** [same_id_overwrites] on the directories ["007"] and ["7"] of the odd
    tree, walked into the empty shard map. *)
Lemma same_id_overwrites_witness :
  let paths := (Walk discover "data" oddTree ∅).1 in
  let regs := registrations "data" oddTree ∅ in
  (uint64 7, "data/db0/autogen/007") ∈ regs ∧ (uint64 7, "data/db0/autogen/7") ∈ regs ∧
  paths = assign ∅ regs ∧
  (∃ p,
      paths !! uint64 7 = Some p ∧
      ∀ l1 l2 p', regs = l1 ++ (uint64 7, p') :: l2 → uint64 7 ∉ l2.*1 → p' = p) ∧
  (∀ ro k1 k2, ¬ ((k1, "data/db0/autogen/007") ∈ range ro paths ∧
                  (k2, "data/db0/autogen/7") ∈ range ro paths)) ∧
  (∀ l1 l2,
      regs = l1 ++ (uint64 7, "data/db0/autogen/7") :: l2 → uint64 7 ∉ l2.*1 →
      paths !! uint64 7 = Some "data/db0/autogen/7" ∧
      ∀ ro k, (k, "data/db0/autogen/007") ∉ range ro paths).
Proof.
  apply (same_id_overwrites "data" oddTree ∅
           "data/db0/autogen/007" "data/db0/autogen/7" "007" "7" [] [] 7).
  - vm_compute. reflexivity.
  - apply (reaches_odd_shard (Dir "007" None [])). in_odd.
  - apply (reaches_odd_shard (Dir "7" None [])). in_odd.
  - intros [?|?]; discriminate.
  - intros [?|?]; discriminate.
  - reflexivity.
  - reflexivity.
  - discriminate.
  - apply oddTree_names; [rewrite oddTree_calls; do 5 right; by left | one_call].
  - apply oddTree_names; [rewrite oddTree_calls; do 6 right; by left | one_call].
  - intros k. by rewrite lookup_empty.
Defined.

(** [file_failures_are_skipped] on the shard whose first file is not a TSM
    file and whose second file holds a key of [cpu] and a key of [mem]:
    the unreadable file yields its warning, and each bucket holds the key
    and the field name of the readable file. *)
Lemma file_failures_are_skipped_witness :
  let r := WalkShardDirs oneBadFile shard1 (scanFile oneBadFile NewExactCounter) emptyScan in
  (fileKeys oneBadFile "bad.tsm" = [] ∧
   scanFile oneBadFile NewExactCounter "db0" "autogen" "1" "bad.tsm" emptyScan
   = (warn emptyScan ("error: " +:+ "bad.tsm" +:+ ": " +:+ "invalid TSM file"
                        +:+ ". Skipping." +:+ nl), None)) ∧
  r.2 = None ∧
  written (stderr r.1) = ["error: bad.tsm: invalid TSM file. Skipping." +:+ nl] ∧
  bucket (toto r.1) "db0" "autogen" "cpu" = Some 0%nat ∧
  cells r.1 !! 0%nat = Some {| fields := Add "value" (NewExactCounter ());
                               series := Add cpuA (NewExactCounter ()) |} ∧
  bucket (toto r.1) "db0" "autogen" "mem" = Some 1%nat ∧
  cells r.1 !! 1%nat = Some {| fields := Add "used" (NewExactCounter ());
                               series := Add memA (NewExactCounter ()) |}.
Proof.
  destruct (file_failures_are_skipped oneBadFile NewExactCounter)
    as (Hskip & _ & _ & _ & Hshard).
  destruct (Hshard shard1 _ emptyScan indexWf_empty eq_refl) as (Hr & Hst & Hb).
  assert (bucket (toto (WalkShardDirs oneBadFile shard1
                          (scanFile oneBadFile NewExactCounter) emptyScan).1)
                 "db0" "autogen" "cpu" = Some 0%nat) as Hcpu by (vm_compute; reflexivity).
  assert (bucket (toto (WalkShardDirs oneBadFile shard1
                          (scanFile oneBadFile NewExactCounter) emptyScan).1)
                 "db0" "autogen" "mem" = Some 1%nat) as Hmem by (vm_compute; reflexivity).
  pose proof (Hb "db0" "autogen" "cpu") as Hc. rewrite Hcpu in Hc.
  pose proof (Hb "db0" "autogen" "mem") as Hm. rewrite Hmem in Hm.
  split_and!.
  - apply (Hskip "db0" "autogen" "1" "bad.tsm" emptyScan (errOS "invalid TSM file")).
    right. reflexivity.
  - apply (Hskip "db0" "autogen" "1" "bad.tsm" emptyScan (errOS "invalid TSM file")).
    right. reflexivity.
  - exact Hr.
  - rewrite Hst. reflexivity.
  - exact Hcpu.
  - exact (proj2 (proj2 Hc)).
  - exact Hmem.
  - exact (proj2 (proj2 Hm)).
Defined.

End RevisedWitnesses.
